(** * A verification model of the IPTV front-end core

    Shallow embedding of [src/js/m3u-pharser.js] (the [M3UParser] and
    [Navigation] objects) and of the collaborators they call
    ([Storage] in [src/unnamed/part_000], [Player] in
    [src/unnamed/part_001], [App] in [src/js/app.js]).

    Strings are JavaScript strings whose UTF-16 code units lie in the
    Latin-1 range 0..255; one code unit is one [ascii] (an 8-bit value). *)

From Stdlib Require Import String Ascii List ZArith Bool Lia Permutation Sorted.
Import ListNotations.
Open Scope string_scope.
Open Scope nat_scope.

(** ** JavaScript string primitives on Latin-1 code units *)
Module JsString.

Definition code (c : ascii) : nat := nat_of_ascii c.

(** [String.prototype.trim] strips WhiteSpace and LineTerminator code
    units; in the Latin-1 range these are TAB, LF, VT, FF, CR, SPACE, NBSP. *)
Definition is_ws (c : ascii) : bool :=
  match code c with
  | 9 | 10 | 11 | 12 | 13 | 32 | 160 => true
  | _ => false
  end.

(** Regular-expression LineTerminators in the Latin-1 range (LF, CR). *)
Definition is_line_terminator (c : ascii) : bool :=
  match code c with
  | 10 | 13 => true
  | _ => false
  end.

(** [toLowerCase] on one code unit: A-Z and the Latin-1 capitals
    U+00C0..U+00DE (except U+00D7) move up by 0x20. *)
Definition lower_char (c : ascii) : ascii :=
  let n := code c in
  if ((65 <=? n) && (n <=? 90)) || ((192 <=? n) && (n <=? 222) && negb (n =? 215))
  then ascii_of_nat (n + 32) else c.

Fixpoint toLowerCase (s : string) : string :=
  match s with
  | EmptyString => EmptyString
  | String c s' => String (lower_char c) (toLowerCase s')
  end.

Fixpoint trim_start (s : string) : string :=
  match s with
  | EmptyString => EmptyString
  | String c s' => if is_ws c then trim_start s' else s
  end.

Fixpoint trim_end (s : string) : string :=
  match s with
  | EmptyString => EmptyString
  | String c s' =>
      let r := trim_end s' in
      if is_ws c && String.eqb r "" then "" else String c r
  end.

Definition trim (s : string) : string := trim_end (trim_start s).

(** [s.startsWith(p)] *)
Definition startsWith (s p : string) : bool := String.prefix p s.

(** [s.includes(t)]: [t] occurs in [s] at some position. *)
Fixpoint includes (s t : string) : bool :=
  String.prefix t s ||
  match s with
  | EmptyString => false
  | String _ s' => includes s' t
  end.

(** [s.split('\n')] *)
Definition newline : ascii := ascii_of_nat 10.

Fixpoint split_nl (s : string) : list string :=
  match s with
  | EmptyString => [""]
  | String c s' =>
      if Ascii.eqb c newline then "" :: split_nl s'
      else match split_nl s' with
           | [] => [String c ""]
           | w :: ws => String c w :: ws
           end
  end.

End JsString.

Import JsString.

(** ** M3UParser *)
Module M3UParser.

(** The object [parseExtInf] builds. *)
Record extinf := {
  name : string;
  logo : string;
  group : string;
  language : string;
  country : string;
  tvgId : string;
  tvgName : string
}.

(** A parsed channel: the [extinf] object after [parse] added [url] and [id]. *)
Record channel := {
  info : extinf;
  url : string;
  id : string
}.

Definition set_name (c : extinf) (v : string) : extinf :=
  {| name := v; logo := logo c; group := group c; language := language c;
     country := country c; tvgId := tvgId c; tvgName := tvgName c |}.
Definition set_logo (c : extinf) (v : string) : extinf :=
  {| name := name c; logo := v; group := group c; language := language c;
     country := country c; tvgId := tvgId c; tvgName := tvgName c |}.
Definition set_group (c : extinf) (v : string) : extinf :=
  {| name := name c; logo := logo c; group := v; language := language c;
     country := country c; tvgId := tvgId c; tvgName := tvgName c |}.
Definition set_language (c : extinf) (v : string) : extinf :=
  {| name := name c; logo := logo c; group := group c; language := v;
     country := country c; tvgId := tvgId c; tvgName := tvgName c |}.
Definition set_country (c : extinf) (v : string) : extinf :=
  {| name := name c; logo := logo c; group := group c; language := language c;
     country := v; tvgId := tvgId c; tvgName := tvgName c |}.
Definition set_tvgId (c : extinf) (v : string) : extinf :=
  {| name := name c; logo := logo c; group := group c; language := language c;
     country := country c; tvgId := v; tvgName := tvgName c |}.
Definition set_tvgName (c : extinf) (v : string) : extinf :=
  {| name := name c; logo := logo c; group := group c; language := language c;
     country := country c; tvgId := tvgId c; tvgName := v |}.

Definition default_extinf : extinf :=
  {| name := "Unknown Channel"; logo := ""; group := "Uncategorized";
     language := ""; country := ""; tvgId := ""; tvgName := "" |}.

(** *** The global attribute regex: a key [[a-zA-Z-]+], an equals sign,
    a double quote, a value of non-quote code units, a double quote. *)

Definition dquote : ascii := ascii_of_nat 34.
Definition comma : ascii := ",".

Definition is_key_char (c : ascii) : bool :=
  let n := code c in
  ((65 <=? n) && (n <=? 90)) || ((97 <=? n) && (n <=? 122)) || (n =? 45).

(** The greedy run [[a-zA-Z-]+] (maximal prefix) and what follows it. *)
Fixpoint key_run (s : string) : string * string :=
  match s with
  | EmptyString => ("", "")
  | String c s' =>
      if is_key_char c then let (k, r) := key_run s' in (String c k, r)
      else ("", s)
  end.

(** The greedy run of non-quote code units and what follows it. *)
Fixpoint value_run (s : string) : string * string :=
  match s with
  | EmptyString => ("", "")
  | String c s' =>
      if Ascii.eqb c dquote then ("", s)
      else let (v, r) := value_run s' in (String c v, r)
  end.

(** A match of the attribute pattern starting exactly at the head of [s].
    Backtracking cannot help: a shorter key run is followed by a key
    character, never by [=], and a shorter value run by a non-quote. *)
Definition match_attr_at (s : string) : option (string * string * string) :=
  let (k, r) := key_run s in
  if String.eqb k "" then None else
  match r with
  | String e (String q r') =>
      if Ascii.eqb e "=" && Ascii.eqb q dquote then
        let (v, r'') := value_run r' in
        match r'' with
        | String q' rest => if Ascii.eqb q' dquote then Some (k, v, rest) else None
        | EmptyString => None
        end
      else None
  | _ => None
  end.

(** The [while ((match = attrRegex.exec(line)) !== null)] loop: every
    match, leftmost first, each search resuming after the previous match. *)
Fixpoint attr_matches (fuel : nat) (s : string) : list (string * string) :=
  match fuel with
  | O => []
  | S fuel' =>
      match s with
      | EmptyString => []
      | String _ s' =>
          match match_attr_at s with
          | Some (k, v, rest) => (k, v) :: attr_matches fuel' rest
          | None => attr_matches fuel' s'
          end
      end
  end.

(** The [switch (key.toLowerCase())] body. *)
Definition apply_attr (c : extinf) (kv : string * string) : extinf :=
  let (key, value) := kv in
  let k := toLowerCase key in
  if String.eqb k "tvg-logo" then set_logo c value
  else if String.eqb k "tvg-name" then set_tvgName c value
  else if String.eqb k "tvg-id" then set_tvgId c value
  else if String.eqb k "group-title" then
    set_group c (if String.eqb value "" then "Uncategorized" else value)
  else if String.eqb k "tvg-language" then set_language c value
  else if String.eqb k "tvg-country" then set_country c value
  else c.

(** [line.match(/,(.+)$/)]: the leftmost comma followed by at least one
    code unit and no line terminator up to the end of the string. *)
Fixpoint all_non_terminators (s : string) : bool :=
  match s with
  | EmptyString => true
  | String c s' => negb (is_line_terminator c) && all_non_terminators s'
  end.

Fixpoint name_match (s : string) : option string :=
  match s with
  | EmptyString => None
  | String c s' =>
      if Ascii.eqb c comma && negb (String.eqb s' "") && all_non_terminators s'
      then Some s'
      else name_match s'
  end.

Definition parseExtInf (line : string) : extinf :=
  let c0 := default_extinf in
  let c1 := fold_left apply_attr (attr_matches (String.length line) line) c0 in
  let c2 := match name_match line with
            | Some m => set_name c1 (trim m)
            | None => c1
            end in
  if String.eqb (name c2) "Unknown Channel" && negb (String.eqb (tvgName c2) "")
  then set_name c2 (tvgName c2)
  else c2.

(** *** [search] *)
Definition search (channels : list channel) (query : string) : list channel :=
  if String.eqb query "" || String.eqb (trim query) "" then []
  else
    let searchTerm := trim (toLowerCase query) in
    filter (fun ch =>
      includes (toLowerCase (name (info ch))) searchTerm ||
      includes (toLowerCase (group (info ch))) searchTerm ||
      (negb (String.eqb (country (info ch)) "") &&
         includes (toLowerCase (country (info ch))) searchTerm) ||
      (negb (String.eqb (language (info ch)) "") &&
         includes (toLowerCase (language (info ch))) searchTerm))
      channels.

(** *** [generateId]: the 32-bit rolling hash rendered in base 36 *)

(** ECMAScript ToInt32. *)
Definition toInt32 (z : Z) : Z :=
  let m := Z.modulo z (2 ^ 32) in
  if (2 ^ 31 <=? m)%Z then (m - 2 ^ 32)%Z else m.

(** One iteration: [hash = ((hash << 5) - hash) + char; hash = hash & hash;] *)
Definition hash_step (hash : Z) (c : ascii) : Z :=
  let shifted := toInt32 (hash * 32) in
  toInt32 (shifted - hash + Z.of_nat (code c))%Z.

Fixpoint hash_string (hash : Z) (s : string) : Z :=
  match s with
  | EmptyString => hash
  | String c s' => hash_string (hash_step hash c) s'
  end.

Definition digit36 (d : Z) : ascii :=
  if (d <? 10)%Z then ascii_of_nat (48 + Z.to_nat d)
  else ascii_of_nat (87 + Z.to_nat d).

(** [Number.prototype.toString(36)] on a non-negative integer. *)
Fixpoint to_base36_aux (fuel : nat) (n : Z) (acc : string) : string :=
  match fuel with
  | O => acc
  | S fuel' =>
      let acc' := String (digit36 (Z.modulo n 36)) acc in
      if (n <? 36)%Z then acc' else to_base36_aux fuel' (Z.div n 36) acc'
  end.

Definition to_base36 (n : Z) : string := to_base36_aux 64 n "".

Definition generateId (c : extinf) (u : string) : string :=
  "ch_" ++ to_base36 (Z.abs (hash_string 0 (name c ++ u))).

(** *** [parse] *)
Definition mk_channel (c : extinf) (line : string) : channel :=
  {| info := c; url := line; id := generateId c line |}.

Fixpoint parse_lines (lines : list string) (currentChannel : option extinf)
  : list channel :=
  match lines with
  | [] => []
  | raw :: lines' =>
      let line := trim raw in
      if String.eqb line "" then parse_lines lines' currentChannel
      else if startsWith line "#EXTINF:" then
        parse_lines lines' (Some (parseExtInf line))
      else if startsWith line "http" then
        match currentChannel with
        | Some c => mk_channel c line :: parse_lines lines' None
        | None => parse_lines lines' currentChannel
        end
      else parse_lines lines' currentChannel
  end.

Definition parse (content : string) : list channel :=
  parse_lines (split_nl content) None.

(** *** The spec's reading of the name rule (compared with [parseExtInf]) *)

(** The text after the last comma that is not inside a double-quoted
    attribute value ("top-level"). *)
Fixpoint last_top_level_title (s : string) (in_quote : bool)
  (found : option string) : option string :=
  match s with
  | EmptyString => found
  | String c s' =>
      if Ascii.eqb c dquote then last_top_level_title s' (negb in_quote) found
      else if Ascii.eqb c comma && negb in_quote
      then last_top_level_title s' in_quote (Some s')
      else last_top_level_title s' in_quote found
  end.

(** Spec: explicit title text if present and non-empty, else the
    [tvg-name] attribute, else ["Unknown Channel"]. *)
Definition spec_name (line : string) : string :=
  let t := match last_top_level_title line false None with
           | Some t => trim t
           | None => ""
           end in
  if negb (String.eqb t "") then t
  else if negb (String.eqb (tvgName (parseExtInf line)) "") then tvgName (parseExtInf line)
  else "Unknown Channel".

(** No comma anywhere in [s]. *)
Fixpoint comma_free (s : string) : bool :=
  match s with
  | EmptyString => true
  | String c s' => negb (Ascii.eqb c comma) && comma_free s'
  end.

(** The spec's reading of [search]: case-insensitive substring match of
    the trimmed query on name, group, country or language. *)
Definition ci_includes (s t : string) : bool :=
  includes (toLowerCase s) (toLowerCase t).

Definition spec_search (channels : list channel) (query : string) : list channel :=
  let t := trim query in
  if String.eqb t "" then []
  else filter (fun ch =>
         ci_includes (name (info ch)) t || ci_includes (group (info ch)) t ||
         ci_includes (country (info ch)) t || ci_includes (language (info ch)) t)
       channels.

End M3UParser.

(** ** [M3UParser.fetchPlaylist] with its collaborators *)
Module Fetch.
Import M3UParser.

(** [encodeURIComponent] on Latin-1 code units: the unreserved marks stay,
    every other code unit is UTF-8 encoded and percent-escaped (upper-case hex). *)
Definition is_unreserved (c : ascii) : bool :=
  let n := code c in
  ((65 <=? n) && (n <=? 90)) || ((97 <=? n) && (n <=? 122)) ||
  ((48 <=? n) && (n <=? 57)) ||
  match n with
  | 45 | 95 | 46 | 33 | 126 | 42 | 39 | 40 | 41 => true
  | _ => false
  end.

Definition hex_digit (d : nat) : ascii :=
  if d <? 10 then ascii_of_nat (48 + d) else ascii_of_nat (55 + d).

Definition percent (b : nat) : string :=
  String "%" (String (hex_digit (b / 16)) (String (hex_digit (b mod 16)) "")).

Fixpoint encodeURIComponent (s : string) : string :=
  match s with
  | EmptyString => EmptyString
  | String c s' =>
      let n := code c in
      let head :=
        if is_unreserved c then String c ""
        else if n <? 128 then percent n
        else percent (192 + n / 64) ++ percent (128 + n mod 64) in
      head ++ encodeURIComponent s'
  end.

Definition PLAYLIST_URL : string := "https://iptv-org.github.io/iptv/index.m3u8".

Definition CORS_PROXIES : list string :=
  [ "https://corsproxy.io/?"; "https://api.allorigins.win/raw?url="; "" ].

Definition PHP_PROXY : string := "php/proxy.php?url=".

(** The values a strategy can throw: a network rejection of [fetch] or of
    [response.text()], the [HTTP error! status: N] error built for a
    non-ok response, and [new Error('Failed to fetch playlist')]. *)
Inductive js_error :=
| NetworkError (tag : nat)
| HttpError (status : Z)
| GenericError.

Record response := {
  ok : bool;
  status : Z;
  text : string + js_error   (** what [await response.text()] yields or throws *)
}.

Inductive fetch_result :=
| Rejected (e : js_error)
| Resolved (r : response).

(** The environment of one call: what [Storage.getCachedChannels()]
    returns ([None] for [null]) and how the transport answers each URL.
    [Storage.cacheChannels] catches its own errors, so it never throws. *)
Record env := {
  getCachedChannels : option (list channel);
  net : string -> fetch_result
}.

(** Observable effects, in order: a request, a [console.warn] of a caught
    error, a [Storage.cacheChannels] write. *)
Inductive event :=
| Fetched (u : string)
| Warned (e : js_error)
| Cached (chs : list channel).

Inductive outcome :=
| Returned (chs : list channel)
| Thrown (e : js_error).

(** One pass of the [for (const proxy of this.CORS_PROXIES)] body. *)
Inductive attempt :=
| AOk (chs : list channel)
| AErr (e : js_error)
| AEmpty.

Definition proxy_target (url proxy : string) : string :=
  let fetchUrl := proxy ++ encodeURIComponent url in
  if String.eqb proxy "" then url else fetchUrl.

Definition loop_attempt (E : env) (target : string) : list event * attempt :=
  match net E target with
  | Rejected e => ([Fetched target; Warned e], AErr e)
  | Resolved r =>
      if negb (ok r) then
        ([Fetched target; Warned (HttpError (status r))], AErr (HttpError (status r)))
      else match text r with
           | inr e => ([Fetched target; Warned e], AErr e)
           | inl content =>
               let channels := parse content in
               if 0 <? length channels then ([Fetched target; Cached channels], AOk channels)
               else ([Fetched target], AEmpty)
           end
  end.

Fixpoint proxy_loop (E : env) (url : string) (proxies : list string)
  (lastError : option js_error) : list event * (list channel + option js_error) :=
  match proxies with
  | [] => ([], inr lastError)
  | proxy :: rest =>
      let (ev, a) := loop_attempt E (proxy_target url proxy) in
      match a with
      | AOk chs => (ev, inl chs)
      | AErr e => let (ev', r) := proxy_loop E url rest (Some e) in ((ev ++ ev')%list, r)
      | AEmpty => let (ev', r) := proxy_loop E url rest lastError in ((ev ++ ev')%list, r)
      end
  end.

(** The [php/proxy.php] attempt: its own [try]/[catch] logs and drops errors. *)
Definition php_attempt (E : env) (url : string) : list event * option (list channel) :=
  let target := PHP_PROXY ++ encodeURIComponent url in
  match net E target with
  | Rejected e => ([Fetched target; Warned e], None)
  | Resolved r =>
      if ok r then
        match text r with
        | inr e => ([Fetched target; Warned e], None)
        | inl content =>
            let channels := parse content in
            if 0 <? length channels then ([Fetched target; Cached channels], Some channels)
            else ([Fetched target], None)
        end
      else ([Fetched target], None)
  end.

Definition fetchPlaylist (E : env) (url : string) : list event * outcome :=
  let network :=
    let (ev1, r1) := proxy_loop E url CORS_PROXIES None in
    match r1 with
    | inl chs => (ev1, Returned chs)
    | inr lastError =>
        let (ev2, r2) := php_attempt E url in
        match r2 with
        | Some chs => ((ev1 ++ ev2)%list, Returned chs)
        | None =>
            ((ev1 ++ ev2)%list, Thrown (match lastError with Some e => e | None => GenericError end))
        end
    end in
  match getCachedChannels E with
  | Some cached => if 0 <? length cached then ([], Returned cached) else network
  | None => network
  end.

(** The requests issued, in order. *)
Definition fetched_urls (evs : list event) : list string :=
  flat_map (fun ev => match ev with Fetched u => [u] | _ => [] end) evs.

(** The strategy URLs in the order the code tries them. *)
Definition strategy_urls (url : string) : list string :=
  app (map (proxy_target url) CORS_PROXIES) [PHP_PROXY ++ encodeURIComponent url].

(** A strategy succeeds when its response is ok and its body parses into
    at least one channel. *)
Definition succeeds (E : env) (u : string) : bool :=
  match net E u with
  | Resolved r =>
      ok r && match text r with
              | inl content => 0 <? length (parse content)
              | inr _ => false
              end
  | Rejected _ => false
  end.

Fixpoint tried_until_success (E : env) (us : list string) : nat :=
  match us with
  | [] => 0
  | u :: us' => if succeeds E u then 1 else S (tried_until_success E us')
  end.

Definition is_returned (o : outcome) : bool :=
  match o with Returned _ => true | Thrown _ => false end.

Definition cache_miss (E : env) : Prop :=
  match getCachedChannels E with
  | Some cached => cached = []
  | None => True
  end.

End Fetch.

(** ** The [Navigation] object *)
Module Navigation.
Local Open Scope list_scope.

(** A DOM node, by identity. *)
Definition element := nat.

Record rect := { top : Z; left : Z }.

Record hist_entry := { h_element : element; h_section : string }.

(** The mutable fields of [Navigation]. *)
Record state := {
  focusedElement : option element;
  focusHistory : list hist_entry;
  grid : list (list element);
  currentRow : Z;
  currentCol : Z;
  currentSection : string;
  isPlayerActive : bool
}.

(** A JavaScript object seen through the names of its methods. *)
Definition js_object := list string.

(** The methods of [const Player] ([src/unnamed/part_001]). *)
Definition Player_object : js_object :=
  [ "init"; "setupVideoListeners"; "setupControls"; "setupKeyboardShortcuts";
    "play"; "togglePlayPause"; "toggleMute"; "setVolume"; "changeVolume";
    "seek"; "skip"; "toggleFullscreen"; "closePlayer"; "updatePlayButton";
    "updateVolumeButton"; "updateProgressBar"; "updateDuration";
    "updateVolumeDisplay"; "showControls"; "hideControls"; "showPlayerError";
    "formatTime" ].

(** The methods of [const App] ([src/js/app.js]). *)
Definition App_object : js_object :=
  [ "init"; "initStorage"; "setupUIListeners"; "loadChannels"; "renderChannels";
    "playChannel"; "toggleFavorite"; "switchSection"; "handlePlaylistUpload";
    "handlePlaylistUrlInput"; "setupChannelRefresh"; "showApp"; "showError";
    "showMessage" ].

(** What the page offers the navigation code: the DOM queries it makes and
    the globals [window.Player] and [window.App] ([None] for [undefined];
    the sources declare [Player] and [App] with top-level [const], which
    does not create a property of [window]). *)
Record env := {
  section_present : bool;            (** [.section.active, #player-overlay:not(.hidden)] found *)
  player_focusables : list element;  (** [#player-overlay .focusable] *)
  header_focusables : list element;  (** [#main-nav .focusable] *)
  section_focusables : list element; (** [.section.active .focusable] *)
  rect_of : element -> rect;         (** [getBoundingClientRect()] *)
  attached : element -> bool;        (** [document.contains(el)] *)
  favorite_button : element -> option element;
    (** [el.closest('.channel-card')?.querySelector('[data-action=favorite]')] *)
  window_Player : option js_object;
  window_App : option js_object
}.

Inductive effect :=
| Clicked (e : element)
| Focused (e : element)
| MethodCalled (obj : string) (meth : string).

(** The end of an operation: the state it leaves (also when it throws,
    since the fields it assigned before throwing stay assigned), its
    effects, and whether it threw a [TypeError]. *)
Record result := { final : state; effects : list effect; raised : bool }.

Definition done (s : state) (fx : list effect) : result :=
  {| final := s; effects := fx; raised := false |}.
Definition throws (s : state) : result :=
  {| final := s; effects := []; raised := true |}.

Definition with_cursor (s : state) (r c : Z) : state :=
  {| focusedElement := focusedElement s; focusHistory := focusHistory s;
     grid := grid s; currentRow := r; currentCol := c;
     currentSection := currentSection s; isPlayerActive := isPlayerActive s |}.
Definition with_focus (s : state) (e : element) : state :=
  {| focusedElement := Some e; focusHistory := focusHistory s;
     grid := grid s; currentRow := currentRow s; currentCol := currentCol s;
     currentSection := currentSection s; isPlayerActive := isPlayerActive s |}.
Definition with_history (s : state) (h : list hist_entry) : state :=
  {| focusedElement := focusedElement s; focusHistory := h;
     grid := grid s; currentRow := currentRow s; currentCol := currentCol s;
     currentSection := currentSection s; isPlayerActive := isPlayerActive s |}.
Definition with_grid (s : state) (g : list (list element)) : state :=
  {| focusedElement := focusedElement s; focusHistory := focusHistory s;
     grid := g; currentRow := currentRow s; currentCol := currentCol s;
     currentSection := currentSection s; isPlayerActive := isPlayerActive s |}.

(** [a[i]] on an array: [undefined] ([None]) off the ends. *)
Definition idx {A} (l : list A) (i : Z) : option A :=
  if (i <? 0)%Z then None else nth_error l (Z.to_nat i).

Definition len {A} (l : list A) : Z := Z.of_nat (length l).

(** *** [updateFocusableElements]: the grid builder *)

(** [Math.floor(rect.top / 80)] *)
Definition row_of (rect : element -> rect) (e : element) : Z := Z.div (top (rect e)) 80.

(** Only an array index ([0 <= k < 2^32 - 1]) makes [this.grid[row]] an
    element of the array; any other key is a plain property of the array
    object, which [filter] never visits, so such a bucket is never read. *)
Definition is_array_index (k : Z) : bool := (0 <=? k)%Z && (k <? 2 ^ 32 - 1)%Z.

(** The array's element buckets, by ascending index. *)
Fixpoint bucket_push (k : Z) (e : element) (b : list (Z * list element))
  : list (Z * list element) :=
  match b with
  | [] => [(k, [e])]
  | (k', es) :: b' =>
      if (k =? k')%Z then (k', es ++ [e]) :: b'
      else if (k <? k')%Z then (k, [e]) :: b
      else (k', es) :: bucket_push k e b'
  end.

Definition bucket_all (rect : element -> rect) (els : list element)
  : list (Z * list element) :=
  fold_left (fun b e =>
      let row := row_of rect e in
      if is_array_index row then bucket_push row e b else b)
    els [].

(** [row.sort((a, b) => rectA.left - rectB.left)]: a stable sort. *)
Fixpoint insert_by_left (rect : element -> rect) (e : element) (l : list element)
  : list element :=
  match l with
  | [] => [e]
  | h :: t => if (left (rect e) <? left (rect h))%Z then e :: l
              else h :: insert_by_left rect e t
  end.

Definition sort_by_left (rect : element -> rect) (l : list element) : list element :=
  fold_left (fun acc e => insert_by_left rect e acc) l [].

Definition buildGrid (rect : element -> rect) (els : list element) : list (list element) :=
  map (sort_by_left rect)
    (filter (fun row => negb (Nat.eqb (length row) 0)) (map snd (bucket_all rect els))).

Definition updateFocusableElements (E : env) (s : state) : state :=
  if negb (section_present E) then s
  else
    let focusables :=
      if isPlayerActive s then player_focusables E
      else header_focusables E ++ section_focusables E in
    with_grid s (buildGrid (rect_of E) focusables).

(** *** [navigate] *)

Inductive direction := Up | Down | Left | Right.

(** [this.grid[row].indexOf(currentEl)] over the rows, first hit. *)
Fixpoint index_of (row : list element) (e : element) : option nat :=
  match row with
  | [] => None
  | x :: row' => if Nat.eqb x e then Some 0 else option_map S (index_of row' e)
  end.

Fixpoint locate_from (r : nat) (g : list (list element)) (e : element) : option (Z * Z) :=
  match g with
  | [] => None
  | row :: g' =>
      match index_of row e with
      | Some c => Some (Z.of_nat r, Z.of_nat c)
      | None => locate_from (S r) g' e
      end
  end.

Definition locate (g : list (list element)) (e : element) : option (Z * Z) :=
  locate_from 0 g e.

(** [setFocus(element)]: class toggling, scrolling and the focus hook
    change nothing else of the state and cannot throw. *)
Definition setFocus (s : state) (e : element) : result :=
  done (with_focus s e) [Focused e].

(** [if (nextEl && nextEl !== currentEl) this.setFocus(nextEl);] *)
Definition finish (currentEl : option element) (s : state) (nextEl : option element)
  : result :=
  match nextEl with
  | Some e' =>
      match currentEl with
      | Some e => if Nat.eqb e e' then done s [] else setFocus s e'
      | None => setFocus s e'
      end
  | None => done s []
  end.

(** The [for] loop that finds [currentEl] in the grid and, when found,
    overwrites [currentRow]/[currentCol]. *)
Definition sync_cursor (s : state) : state :=
  match focusedElement s with
  | Some e => match locate (grid s) e with
              | Some (r, c) => with_cursor s r c
              | None => s
              end
  | None => s
  end.

(** The [switch (direction)] and the final [setFocus] guard. *)
Definition move (currentEl : option element) (s : state) (d : direction) : result :=
  let g := grid s in
  let r := currentRow s in
  let c := currentCol s in
  match d with
  | Up =>
      if (0 <? r)%Z then
        let r' := (r - 1)%Z in
        match idx g r' with
        | None => throws (with_cursor s r' c)
        | Some row =>
            let c' := Z.min c (len row - 1) in
            finish currentEl (with_cursor s r' c') (idx row c')
        end
      else done s []
  | Down =>
      if (r <? len g - 1)%Z then
        let r' := (r + 1)%Z in
        match idx g r' with
        | None => throws (with_cursor s r' c)
        | Some row =>
            let c' := Z.min c (len row - 1) in
            finish currentEl (with_cursor s r' c') (idx row c')
        end
      else done s []
  | Left =>
      if (0 <? c)%Z then
        let c' := (c - 1)%Z in
        match idx g r with
        | None => throws (with_cursor s r c')
        | Some row => finish currentEl (with_cursor s r c') (idx row c')
        end
      else if (0 <? r)%Z then
        let r' := (r - 1)%Z in
        match idx g r' with
        | None => throws (with_cursor s r' c)
        | Some row =>
            let c' := (len row - 1)%Z in
            finish currentEl (with_cursor s r' c') (idx row c')
        end
      else done s []
  | Right =>
      match idx g r with
      | None => throws s
      | Some row =>
          if (c <? len row - 1)%Z then
            let c' := (c + 1)%Z in
            finish currentEl (with_cursor s r c') (idx row c')
          else if (r <? len g - 1)%Z then
            let r' := (r + 1)%Z in
            match idx g r' with
            | None => throws (with_cursor s r' 0)
            | Some row' => finish currentEl (with_cursor s r' 0) (idx row' 0)
            end
          else done s []
      end
  end.

Definition navigate (E : env) (s0 : state) (d : direction) : result :=
  let s1 := match grid s0 with [] => updateFocusableElements E s0 | _ => s0 end in
  match grid s1 with
  | [] => done s1 []
  | _ => move (focusedElement s1) (sync_cursor s1) d
  end.

(** *** [select], [back], [toggleFavorite] *)

Definition select (s : state) : result :=
  match focusedElement s with
  | None => done s []
  | Some e =>
      let pushed := focusHistory s ++ [{| h_element := e; h_section := currentSection s |}] in
      let kept := if 20 <? length pushed then tl pushed else pushed in
      done (with_history s kept) [Clicked e]
  end.

(** [window.X.m(...)]: a [TypeError] when [window.X] is [undefined] or has
    no method [m]. *)
Definition has_method (o : option js_object) (m : string) : bool :=
  match o with
  | Some ms => existsb (String.eqb m) ms
  | None => false
  end.

Definition back (E : env) (s : state) : result :=
  if isPlayerActive s then
    if has_method (window_Player E) "close"
    then done s [MethodCalled "Player" "close"]
    else throws s
  else if negb (String.eqb (currentSection s) "home") then
    if has_method (window_App E) "showSection"
    then done s [MethodCalled "App" "showSection"]
    else throws s
  else
    match focusHistory s with
    | [] => done s []
    | _ =>
        let last_entry := last (focusHistory s) {| h_element := 0; h_section := "" |} in
        let s' := with_history s (removelast (focusHistory s)) in
        if attached E (h_element last_entry) then setFocus s' (h_element last_entry)
        else done s' []
    end.

Definition toggleFavorite (E : env) (s : state) : result :=
  match focusedElement s with
  | None => done s []
  | Some e =>
      match favorite_button E e with
      | Some btn => done s [Clicked btn]
      | None => done s []
      end
  end.

(** The remote-control operations and a run of them: an operation that
    throws leaves the fields it assigned, and the next key press
    starts from there. *)
Inductive op :=
| Navigate (d : direction)
| Select
| Back
| ToggleFavorite.

Definition step (E : env) (o : op) (s : state) : result :=
  match o with
  | Navigate d => navigate E s d
  | Select => select s
  | Back => back E s
  | ToggleFavorite => toggleFavorite E s
  end.

Fixpoint run (E : env) (ops : list op) (s : state) : state :=
  match ops with
  | [] => s
  | o :: ops' => run E ops' (final (step E o s))
  end.

(** The cursor [navigate] moves from: the focused element's position
    when it is in the grid, otherwise the stored fallback fields. *)
Definition position (s : state) : Z * Z :=
  match focusedElement s with
  | Some e => match locate (grid s) e with
              | Some rc => rc
              | None => (currentRow s, currentCol s)
              end
  | None => (currentRow s, currentCol s)
  end.

(** A grid as [updateFocusableElements] builds it from distinct nodes:
    no empty row, no node twice. *)
Definition wf_grid (g : list (list element)) : Prop :=
  Forall (fun row => row <> []) g /\ NoDup (concat g).

End Navigation.

(** ** [M3UParser.getGroups] and [M3UParser.filterByGroup] *)
Module Catalog.
Import M3UParser.

(** The [{ name, count }] objects [getGroups] returns. *)
Record group_entry := { g_name : string; g_count : nat }.

(** [channel.group || 'Uncategorized'] *)
Definition group_key (ch : channel) : string :=
  if String.eqb (group (info ch)) "" then "Uncategorized" else group (info ch).

(** The [Map] from group to count, in insertion order: [groups.set] on a
    key already present keeps its position. *)
Fixpoint map_bump (k : string) (m : list (string * nat)) : list (string * nat) :=
  match m with
  | [] => [(k, 1)]
  | (k', n) :: m' => if String.eqb k' k then (k', n + 1) :: m' else (k', n) :: map_bump k m'
  end.

Definition count_groups (channels : list channel) : list (string * nat) :=
  fold_left (fun m ch => map_bump (group_key ch) m) channels [].

(** [.sort((a, b) => b.count - a.count)]: a stable sort, larger counts first. *)
Fixpoint insert_by_count (e : group_entry) (l : list group_entry) : list group_entry :=
  match l with
  | [] => [e]
  | h :: t => if g_count h <? g_count e then e :: l else h :: insert_by_count e t
  end.

Definition sort_by_count (l : list group_entry) : list group_entry :=
  fold_left (fun acc e => insert_by_count e acc) l [].

Definition getGroups (channels : list channel) : list group_entry :=
  sort_by_count (map (fun p => {| g_name := fst p; g_count := snd p |}) (count_groups channels)).

Definition filterByGroup (channels : list channel) (g : string) : list channel :=
  if String.eqb g "" || String.eqb g "all" then channels
  else filter (fun ch => String.eqb (group (info ch)) g) channels.

(** The channels whose [channel.group || 'Uncategorized'] is [k]. *)
Definition occurrences (k : string) (channels : list channel) : nat :=
  length (filter (fun ch => String.eqb (group_key ch) k) channels).

(** [lines.join('\n')]: a playlist text made of the given lines. *)
Fixpoint join_nl (lines : list string) : string :=
  match lines with
  | [] => ""
  | [l] => l
  | l :: ls => l ++ String newline (join_nl ls)
  end.

(** [s] has no line feed. *)
Fixpoint no_newline (s : string) : bool :=
  match s with
  | EmptyString => true
  | String c s' => negb (Ascii.eqb c newline) && no_newline s'
  end.

End Catalog.

(** ** The [Storage] object ([src/unnamed/part_000]) *)
Module Storage.
Import M3UParser.

(** The objects [addFavorite] and [addRecent] store. *)
Record favorite := {
  fav_name : string; fav_url : string; fav_logo : string; fav_group : string;
  addedAt : Z
}.

Record recent_entry := {
  rec_name : string; rec_url : string; rec_logo : string; rec_group : string;
  watchedAt : Z
}.

(** The [cacheData] object. *)
Record cache_data := { cached : list channel; expiry : Z }.

(** A [localStorage] item as these functions read it: absent ([getItem]
    gives [null] or the empty string), text that [JSON.parse] rejects, or
    the JSON text of a value this object wrote. Its records hold strings
    and integers, so [JSON.parse(JSON.stringify(v))] gives [v] back and
    the item is represented by [v] itself. *)
Inductive slot (A : Type) :=
| Absent
| Unreadable
| Stored (v : A).
Arguments Absent {A}.
Arguments Unreadable {A}.
Arguments Stored {A} v.

(** The items under [KEYS.FAVORITES], [KEYS.RECENT] and [KEYS.CACHE]. *)
Record store := {
  favorites_item : slot (list favorite);
  recent_item : slot (list recent_entry);
  cache_item : slot cache_data
}.

Definition set_favorites (st : store) (v : slot (list favorite)) : store :=
  {| favorites_item := v; recent_item := recent_item st; cache_item := cache_item st |}.
Definition set_recent (st : store) (v : slot (list recent_entry)) : store :=
  {| favorites_item := favorites_item st; recent_item := v; cache_item := cache_item st |}.
Definition set_cache (st : store) (v : slot cache_data) : store :=
  {| favorites_item := favorites_item st; recent_item := recent_item st; cache_item := v |}.

Definition MAX_RECENT : nat := 20.

(** What a method returns, or the [QuotaExceededError] an uncaught
    [localStorage.setItem] throws. The [fits] argument of a writing method
    is the browser's answer to its [setItem] call: [false] when the write
    exceeds the quota, in which case the item keeps its old value. *)
Inductive ret (A : Type) :=
| Value (v : A)
| QuotaExceeded.
Arguments Value {A} v.
Arguments QuotaExceeded {A}.

(** [data ? JSON.parse(data) : []], with the [catch] giving [[]]. *)
Definition getFavorites (st : store) : list favorite :=
  match favorites_item st with
  | Stored l => l
  | _ => []
  end.

Definition has_url (u : string) (f : favorite) : bool := String.eqb (fav_url f) u.

Definition addFavorite (fits : bool) (now : Z) (ch : channel) (st : store)
  : ret bool * store :=
  let favorites := getFavorites st in
  if existsb (has_url (url ch)) favorites then (Value false, st)
  else
    let favorites' :=
      {| fav_name := name (info ch); fav_url := url ch; fav_logo := logo (info ch);
         fav_group := group (info ch); addedAt := now |} :: favorites in
    if fits then (Value true, set_favorites st (Stored favorites'))
    else (QuotaExceeded, st).

(** The argument of [removeFavorite]: the code passes a URL string, and
    [App.toggleFavorite] passes the channel object itself. *)
Inductive js_arg :=
| ArgString (s : string)
| ArgChannel (ch : channel).

(** [s === v] for a string [s]: a string is never strictly equal to an object. *)
Definition strict_eq_string (s : string) (v : js_arg) : bool :=
  match v with
  | ArgString t => String.eqb s t
  | ArgChannel _ => false
  end.

Definition removeFavorite (fits : bool) (channelUrl : js_arg) (st : store)
  : ret unit * store :=
  let favorites := filter (fun f => negb (strict_eq_string (fav_url f) channelUrl))
                     (getFavorites st) in
  if fits then (Value tt, set_favorites st (Stored favorites)) else (QuotaExceeded, st).

Definition isFavorite (channelUrl : string) (st : store) : bool :=
  existsb (has_url channelUrl) (getFavorites st).

Definition getRecent (st : store) : list recent_entry :=
  match recent_item st with
  | Stored l => l
  | _ => []
  end.

Definition addRecent (fits : bool) (now : Z) (ch : channel) (st : store)
  : ret unit * store :=
  let recent := filter (fun r => negb (String.eqb (rec_url r) (url ch))) (getRecent st) in
  let recent :=
    {| rec_name := name (info ch); rec_url := url ch; rec_logo := logo (info ch);
       rec_group := group (info ch); watchedAt := now |} :: recent in
  let recent := if MAX_RECENT <? length recent then firstn MAX_RECENT recent else recent in
  if fits then (Value tt, set_recent st (Stored recent)) else (QuotaExceeded, st).

Definition clearRecent (st : store) : store := set_recent st Absent.

(** [cacheChannels(channels, expiryHours)]: a failed write is caught and
    the item removed. *)
Definition cacheChannels (fits : bool) (now : Z) (channels : list channel)
  (expiryHours : Z) (st : store) : store :=
  let cacheData := {| cached := channels; expiry := (now + expiryHours * 60 * 60 * 1000)%Z |} in
  if fits then set_cache st (Stored cacheData) else set_cache st Absent.

(** [getCachedChannels()] at time [now] ([None] for [null]); an expired
    entry is removed. *)
Definition getCachedChannels (now : Z) (st : store) : option (list channel) * store :=
  match cache_item st with
  | Absent => (None, st)
  | Unreadable => (None, st)
  | Stored cd =>
      if (expiry cd <? now)%Z then (None, set_cache st Absent) else (Some (cached cd), st)
  end.

Definition clearCache (st : store) : store := set_recent (set_cache st Absent) Absent.

Definition clearAll (st : store) : store :=
  {| favorites_item := Absent; recent_item := Absent; cache_item := Absent |}.

End Storage.

(** ** [App] ([src/js/app.js]) on top of [Storage], and [fetchPlaylist]
    wired to [Storage] *)
Module App.
Import M3UParser Storage.

(** [App.toggleFavorite(channel, btn)] on the stored lists (the button
    classes and the re-render do not touch them). *)
Definition toggleFavorite (fits : bool) (now : Z) (ch : channel) (st : store)
  : ret unit * store :=
  let favorites := getFavorites st in
  let isFav := existsb (has_url (url ch)) favorites in
  if isFav then removeFavorite fits (ArgChannel ch) st
  else match addFavorite fits now ch st with
       | (Value _, st') => (Value tt, st')
       | (QuotaExceeded, st') => (QuotaExceeded, st')
       end.

(** [channelsToShow] in [renderChannels(section)]. *)
Definition channelsToShow (section : string) (channels : list channel) (st : store)
  : list channel :=
  if String.eqb section "favorites" then
    filter (fun ch => existsb (has_url (url ch)) (getFavorites st)) channels
  else if String.eqb section "recent" then
    filter (fun ch => existsb (fun r => String.eqb (rec_url r) (url ch)) (getRecent st)) channels
  else channels.

(** [App.playChannel(channel)] on the stored lists: it records the channel
    with [Storage.addRecent]. *)
Definition playChannel (fits : bool) (now : Z) (ch : channel) (st : store)
  : ret unit * store :=
  addRecent fits now ch st.

(** The channel lists a [fetchPlaylist] call hands to [Storage.cacheChannels]. *)
Definition cache_writes (evs : list Fetch.event) : list (list channel) :=
  flat_map (fun ev => match ev with Fetch.Cached chs => [chs] | _ => [] end) evs.

(** One call of [M3UParser.fetchPlaylist(url)] against [localStorage]:
    [Storage.getCachedChannels()] at time [now], the transport [net], and
    each [Storage.cacheChannels(channels)] the call makes (default expiry
    of one hour) performed at time [t_write] with the browser's answer [fits]. *)
Definition apply_cache_writes (fits : bool) (t_write : Z) (evs : list Fetch.event)
  (st : store) : store :=
  fold_left (fun st ev =>
      match ev with
      | Fetch.Cached chs => cacheChannels fits t_write chs 1 st
      | _ => st
      end) evs st.

Definition fetchPlaylist_stored (fits : bool) (now t_write : Z)
  (net : string -> Fetch.fetch_result) (url : string) (st : store)
  : list Fetch.event * Fetch.outcome * store :=
  let (c, st1) := getCachedChannels now st in
  let (evs, o) := Fetch.fetchPlaylist {| Fetch.getCachedChannels := c; Fetch.net := net |} url in
  (evs, o, apply_cache_writes fits t_write evs st1).

End App.

(** ** [Navigation.focusFirst] *)
Module Focus.
Import Navigation.

(** The [focusables] [updateFocusableElements] collects. *)
Definition focusables (E : env) (s : state) : list element :=
  if isPlayerActive s then player_focusables E
  else header_focusables E ++ section_focusables E.

Definition focusFirst (E : env) (s : state) : result :=
  let s1 := updateFocusableElements E s in
  match grid s1 with
  | (x :: _) :: _ => setFocus s1 x
  | _ => done s1 []
  end.

(** The node at a cursor position, [this.grid[r][c]]. *)
Definition at_cursor (g : list (list element)) (r c : Z) : option element :=
  match idx g r with
  | Some row => idx row c
  | None => None
  end.

(** A node's position for [focusFirst]: its band, then its [left]. *)
Definition before_or_at (rect : element -> rect) (x y : element) : Prop :=
  (row_of rect x < row_of rect y)%Z \/
  (row_of rect x = row_of rect y /\ (left (rect x) <= left (rect y))%Z).

End Focus.

(** ** [Player.formatTime] ([src/unnamed/part_001]) *)
Module PlayerTime.

(** The values [formatTime] receives ([video.currentTime], [video.duration])
    taken as whole seconds, or [NaN]. *)
Inductive js_number :=
| NaN
| Num (z : Z).

Definition digit10 (d : Z) : ascii := ascii_of_nat (48 + Z.to_nat d).

(** [String(n)] for a non-negative integer. *)
Fixpoint to_decimal_aux (fuel : nat) (n : Z) (acc : string) : string :=
  match fuel with
  | O => acc
  | S fuel' =>
      let acc' := String (digit10 (Z.modulo n 10)) acc in
      if (n <? 10)%Z then acc' else to_decimal_aux fuel' (Z.div n 10) acc'
  end.

Definition number_toString (n : Z) : string :=
  if (n <? 0)%Z then "-" ++ to_decimal_aux 64 (- n) "" else to_decimal_aux 64 n "".

(** [s.padStart(2, '0')] *)
Definition padStart2 (s : string) : string :=
  match String.length s with
  | 0 => "00"
  | 1 => "0" ++ s
  | _ => s
  end.

(** [Math.floor(seconds / 60)] and [Math.floor(seconds % 60)] on an
    integer: floor division and the remainder with the dividend's sign. *)
Definition formatTime (seconds : js_number) : string :=
  match seconds with
  | NaN => "00:00"
  | Num z =>
      if (z =? 0)%Z then "00:00"
      else padStart2 (number_toString (Z.div z 60)) ++ ":" ++
           padStart2 (number_toString (Z.rem z 60))
  end.

End PlayerTime.

(** ** The [keydown] listener of [Navigation.bindKeyboardEvents] *)
Module Keys.
Import Navigation.

(** [window.Player.m()]: a [TypeError] when [window.Player] is [undefined]
    or has no method [m]. *)
Definition call_Player (E : env) (s : state) (m : string) : result :=
  if has_method (window_Player E) m then done s [MethodCalled "Player" m] else throws s.

(** The [switch (e.key)]. *)
Definition key_action (E : env) (s : state) (key : string) : result :=
  if String.eqb key "ArrowUp" then navigate E s Up
  else if String.eqb key "ArrowDown" then navigate E s Down
  else if String.eqb key "ArrowLeft" then navigate E s Left
  else if String.eqb key "ArrowRight" then navigate E s Right
  else if String.eqb key "Enter" then select s
  else if String.eqb key "Escape" || String.eqb key "Backspace" then back E s
  else if String.eqb key "f" || String.eqb key "F" then toggleFavorite E s
  else if String.eqb key "p" || String.eqb key "P" || String.eqb key " " then
    if isPlayerActive s then call_Player E s "togglePlay" else done s []
  else if String.eqb key "m" || String.eqb key "M" then
    if isPlayerActive s then call_Player E s "toggleMute" else done s []
  else done s [].

(** The whole listener: the [switch], then [window.Player.showControls()]
    when [this.isPlayerActive] holds afterwards. A [TypeError] in the
    [switch] leaves the listener before that call. [preventDefault] changes
    no field of [Navigation]. *)
Definition onKeydown (E : env) (s : state) (key : string) : result :=
  let r := key_action E s key in
  if raised r then r
  else if isPlayerActive (final r) then
    let r' := call_Player E (final r) "showControls" in
    {| final := final r'; effects := effects r ++ effects r'; raised := raised r' |}
  else r.

End Keys.

(** ** Concrete inputs *)
Module Inputs.
Import M3UParser Fetch Navigation.

(** A metadata line whose title contains a comma. *)
Definition line_title_with_comma : string := "#EXTINF:-1,Foo, Bar".

(** No cache, and every request is rejected by the network. *)
Definition env_offline : Fetch.env :=
  {| getCachedChannels := None; net := fun _ => Rejected (NetworkError 0) |}.

(** No cache; the three proxy-loop requests answer 200 with an empty body,
    the [php/proxy.php] request is rejected. *)
Definition env_relay_down : Fetch.env :=
  {| getCachedChannels := None;
     net := fun u =>
       if String.eqb u (PHP_PROXY ++ encodeURIComponent PLAYLIST_URL)
       then Rejected (NetworkError 7)
       else Resolved {| ok := true; status := 200; text := inl "" |} |}.

(** The page as the sources set it up: [window.Player] and [window.App]
    are [undefined]; one visible section; node [e] has top [40 * e]. *)
Definition page : Navigation.env :=
  {| section_present := true; player_focusables := [10; 11];
     header_focusables := [1; 2]; section_focusables := [3; 4];
     rect_of := fun e => {| top := Z.of_nat (e * 40); left := 0 |};
     attached := fun _ => true; favorite_button := fun _ => None;
     window_Player := None; window_App := None |}.

Definition idle : state :=
  {| focusedElement := None; focusHistory := []; grid := [];
     currentRow := 0; currentCol := 0; currentSection := "home";
     isPlayerActive := false |}.

(** A one-node grid while the fallback row still points at row 3 of an
    earlier, taller grid. *)
Definition stale_cursor : state :=
  {| focusedElement := None; focusHistory := []; grid := [[1]];
     currentRow := 3; currentCol := 0; currentSection := "home";
     isPlayerActive := false |}.

(** Player mode, with one history entry. *)
Definition playing : state :=
  {| focusedElement := Some 10; focusHistory := [{| h_element := 3; h_section := "home" |}];
     grid := [[10; 11]]; currentRow := 0; currentCol := 0;
     currentSection := "home"; isPlayerActive := true |}.

(** The page scrolled down: node 3 (header) sits 5 units above the
    viewport, nodes 4 and 5 below it. *)
Definition page_scrolled : Navigation.env :=
  {| section_present := true; player_focusables := [];
     header_focusables := [3]; section_focusables := [4; 5];
     rect_of := fun e => {| top := (Z.of_nat e * 60 - 185)%Z; left := 0 |};
     attached := fun _ => true; favorite_button := fun _ => None;
     window_Player := None; window_App := None |}.

(** Two nodes scrolled 10 units above the viewport. *)
Definition rect_above : element -> rect := fun e => {| top := -10; left := Z.of_nat e |}.

(** A playlist: two News channels, one Sport channel, a metadata line with
    no URL after it, and a URL line padded with spaces. *)
Definition quoted (s : string) : string := String dquote (s ++ String dquote "").

Definition sample_playlist : string :=
  Catalog.join_nl
    ["#EXTM3U";
     "#EXTINF:-1 group-title=" ++ quoted "News" ++ ",One";
     "http://one";
     "#EXTINF:-1,Orphan";
     "#EXTINF:-1 group-title=" ++ quoted "Sport" ++ ",Two";
     "  http://two  ";
     "#EXTINF:-1 group-title=" ++ quoted "News" ++ ",Three";
     "http://three"].

(** No cache; every request answers 200 with [sample_playlist]. *)
Definition net_ok : string -> fetch_result :=
  fun _ => Resolved {| ok := true; status := 200; text := inl sample_playlist |}.

Definition env_ok : Fetch.env := {| getCachedChannels := None; net := net_ok |}.

(** Empty [localStorage]. *)
Definition empty_store : Storage.store :=
  {| Storage.favorites_item := Storage.Absent; Storage.recent_item := Storage.Absent;
     Storage.cache_item := Storage.Absent |}.

(** A channel of the sample playlist. *)
Definition sample_channel : channel :=
  mk_channel (parseExtInf "#EXTINF:-1,One") "http://one".

(** A two-row grid with the cursor on node 3 (row 1, column 0). *)
Definition on_second_row : state :=
  {| focusedElement := Some 3; focusHistory := [{| h_element := 1; h_section := "home" |}];
     grid := [[1; 2]; [3]]; currentRow := 1; currentCol := 0; currentSection := "home";
     isPlayerActive := false |}.

End Inputs.

(** * Properties *)
Import M3UParser Fetch Navigation Inputs.

(** ** Navigation: back in player mode *)

(** C1 (code defect): in player mode [back()] calls [window.Player.close()];
    [window.Player] is [undefined] and [Player] has no [close] method (its
    close operation is [closePlayer]), so for both values the call throws a
    [TypeError]: nothing is closed and the state is left as it was. *)
Theorem back_player_mode_throws :
  forall (E : Navigation.env) (s : state),
    isPlayerActive s = true ->
    window_Player E = None \/ window_Player E = Some Player_object ->
    raised (back E s) = true /\ effects (back E s) = [] /\ final (back E s) = s.
Proof.
  intros E s Hp HP. unfold back. rewrite Hp.
  destruct HP as [HP | HP]; rewrite HP; repeat split.
Qed.

Lemma back_player_mode_throws_witness :
  raised (back page playing) = true /\ effects (back page playing) = [] /\
  final (back page playing) = playing.
Proof.
  apply (back_player_mode_throws page playing); [reflexivity | left; reflexivity].
Defined.

(** C2 (code defect): [navigate] and [back] can throw.  [navigate('right')]
    with a stale fallback row reads [this.grid[3].length] on a one-row grid;
    [back()] in player mode calls the missing [window.Player.close]. *)
Theorem navigate_and_back_can_throw :
  raised (navigate page stale_cursor Right) = true /\
  raised (back page playing) = true.
Proof. split; reflexivity. Qed.

(** ** Parser: channel name *)

(** C4 (counterexample): for [#EXTINF:-1,Foo, Bar] the code names the
    channel [Foo, Bar] (text after the first comma), while the text after
    the last top-level comma is [Bar]. *)
Lemma parseExtInf_name_not_last_comma :
  name (parseExtInf line_title_with_comma) = "Foo, Bar" /\
  spec_name line_title_with_comma = "Bar" /\
  name (parseExtInf line_title_with_comma) <> spec_name line_title_with_comma.
Proof. vm_compute. split; [reflexivity | split; [reflexivity | discriminate]]. Qed.

(** ** Grid builder: negative bands *)

(** C8 (code defect): two nodes 10 units above the viewport share band
    [floor(-10/80) = -1], yet the built grid has no row at all: the
    bucket [this.grid[-1]] is a plain property that [filter] never visits. *)
Theorem buildGrid_drops_shared_negative_band :
  row_of rect_above 1 = row_of rect_above 2 /\ row_of rect_above 1 = (-1)%Z /\
  buildGrid rect_above [1; 2] = [].
Proof. vm_compute. repeat split. Qed.

(** ** Fetcher: the error carried by the failure *)

(** C9 (code defect): when the proxy loop only meets empty bodies and the
    relay request is rejected, the relay's error is logged but the thrown
    value is the generic [Failed to fetch playlist] error. *)
Theorem fetchPlaylist_drops_relay_error :
  snd (fetchPlaylist env_relay_down PLAYLIST_URL) = Thrown GenericError /\
  In (Warned (NetworkError 7)) (fst (fetchPlaylist env_relay_down PLAYLIST_URL)).
Proof. vm_compute. split; [reflexivity | right; right; right; right; left; reflexivity]. Qed.

(** C3 (counterexample): with every strategy failing, the requests go to
    the two proxies first, then the direct URL, then the relay: the first
    request is not the direct one. *)
Lemma fetchPlaylist_direct_not_first :
  fetched_urls (fst (fetchPlaylist env_offline PLAYLIST_URL)) =
    [ "https://corsproxy.io/?https%3A%2F%2Fiptv-org.github.io%2Fiptv%2Findex.m3u8";
      "https://api.allorigins.win/raw?url=https%3A%2F%2Fiptv-org.github.io%2Fiptv%2Findex.m3u8";
      PLAYLIST_URL;
      "php/proxy.php?url=https%3A%2F%2Fiptv-org.github.io%2Fiptv%2Findex.m3u8" ] /\
  hd_error (fetched_urls (fst (fetchPlaylist env_offline PLAYLIST_URL))) <> Some PLAYLIST_URL.
Proof. vm_compute. split; [reflexivity | discriminate]. Qed.

(** *** Transport order *)

Lemma fetched_urls_app :
  forall a b, fetched_urls (a ++ b) = (fetched_urls a ++ fetched_urls b)%list.
Proof. intros a b. unfold fetched_urls. apply flat_map_app. Qed.

Lemma loop_attempt_spec :
  forall E t,
    fetched_urls (fst (loop_attempt E t)) = [t] /\
    match snd (loop_attempt E t) with
    | AOk _ => succeeds E t = true
    | _ => succeeds E t = false
    end.
Proof.
  intros E t. unfold loop_attempt, succeeds.
  destruct (net E t) as [e | r]; [split; reflexivity |].
  destruct (ok r); simpl; [| split; reflexivity].
  destruct (text r) as [content | e]; [| split; reflexivity].
  destruct (0 <? length (parse content)); split; reflexivity.
Qed.

Lemma php_attempt_spec :
  forall E url,
    fetched_urls (fst (php_attempt E url)) = [PHP_PROXY ++ encodeURIComponent url] /\
    match snd (php_attempt E url) with
    | Some _ => succeeds E (PHP_PROXY ++ encodeURIComponent url) = true
    | None => succeeds E (PHP_PROXY ++ encodeURIComponent url) = false
    end.
Proof.
  intros E url. unfold php_attempt, succeeds.
  destruct (net E _) as [e | r]; [split; reflexivity |].
  destruct (ok r); simpl; [| split; reflexivity].
  destruct (text r) as [content | e]; [| split; reflexivity].
  destruct (0 <? length (parse content)); split; reflexivity.
Qed.

Lemma proxy_loop_spec :
  forall E url ps lastError,
    let us := map (proxy_target url) ps in
    fetched_urls (fst (proxy_loop E url ps lastError)) =
      firstn (tried_until_success E us) us /\
    match snd (proxy_loop E url ps lastError) with
    | inl _ => existsb (succeeds E) us = true
    | inr _ => existsb (succeeds E) us = false
    end.
Proof.
  intros E url ps. induction ps as [| p ps IH]; intros lastError; simpl.
  - split; reflexivity.
  - destruct (loop_attempt_spec E (proxy_target url p)) as [Hu Hs].
    destruct (loop_attempt E (proxy_target url p)) as [ev a]. simpl in Hu, Hs.
    destruct a as [chs | e |].
    + simpl. rewrite Hs. split; [exact Hu | reflexivity].
    + specialize (IH (Some e)).
      destruct (proxy_loop E url ps (Some e)) as [ev' r] eqn:Hl.
      destruct IH as [IHu IHs]. simpl in *.
      rewrite fetched_urls_app, Hu, IHu, Hs. split; [reflexivity | exact IHs].
    + specialize (IH lastError).
      destruct (proxy_loop E url ps lastError) as [ev' r] eqn:Hl.
      destruct IH as [IHu IHs]. simpl in *.
      rewrite fetched_urls_app, Hu, IHu, Hs. split; [reflexivity | exact IHs].
Qed.

Lemma tried_until_success_le :
  forall E us, existsb (succeeds E) us = true -> tried_until_success E us <= length us.
Proof.
  intros E us. induction us as [| u us IH]; simpl; [discriminate |].
  destruct (succeeds E u); simpl; intros H; [lia | specialize (IH H); lia].
Qed.

Lemma tried_until_success_app_found :
  forall E l1 l2, existsb (succeeds E) l1 = true ->
    tried_until_success E (l1 ++ l2) = tried_until_success E l1.
Proof.
  intros E l1 l2. induction l1 as [| u l1 IH]; simpl; [discriminate |].
  destruct (succeeds E u); simpl; intros H; [reflexivity | rewrite (IH H); reflexivity].
Qed.

Lemma tried_until_success_app_missed :
  forall E l1 l2, existsb (succeeds E) l1 = false ->
    tried_until_success E (l1 ++ l2) = length l1 + tried_until_success E l2.
Proof.
  intros E l1 l2. induction l1 as [| u l1 IH]; simpl; [reflexivity |].
  destruct (succeeds E u); simpl; intros H; [discriminate | rewrite (IH H); reflexivity].
Qed.

(** C3 (corrected): on a cache miss the requests are exactly the strategy
    URLs in the code's order (the [corsproxy.io] prefix, the [allorigins]
    prefix, the direct URL, then [php/proxy.php]) up to and including the
    first whose ok response parses into at least one channel; the call
    returns channels exactly when some strategy succeeds. *)
Theorem fetchPlaylist_strategy_order :
  forall (E : Fetch.env) (url : string),
    cache_miss E ->
    fetched_urls (fst (fetchPlaylist E url)) =
      firstn (tried_until_success E (strategy_urls url)) (strategy_urls url) /\
    is_returned (snd (fetchPlaylist E url)) = existsb (succeeds E) (strategy_urls url).
Proof.
  intros E url Hmiss.
  assert (Hnet : fetchPlaylist E url =
    let (ev1, r1) := proxy_loop E url CORS_PROXIES None in
    match r1 with
    | inl chs => (ev1, Returned chs)
    | inr lastError =>
        let (ev2, r2) := php_attempt E url in
        match r2 with
        | Some chs => ((ev1 ++ ev2)%list, Returned chs)
        | None =>
            ((ev1 ++ ev2)%list,
             Thrown (match lastError with Some e => e | None => GenericError end))
        end
    end).
  { unfold fetchPlaylist, cache_miss in *.
    destruct (getCachedChannels E) as [cached |]; [subst cached |]; reflexivity. }
  rewrite Hnet. clear Hnet.
  destruct (proxy_loop_spec E url CORS_PROXIES None) as [Hu Hs].
  unfold strategy_urls.
  remember (map (proxy_target url) CORS_PROXIES) as us eqn:Hus.
  remember (PHP_PROXY ++ encodeURIComponent url) as php eqn:Hphp.
  destruct (proxy_loop E url CORS_PROXIES None) as [ev1 r1]. cbn [fst snd] in Hu, Hs.
  destruct r1 as [chs | lastError].
  - cbn [fst snd is_returned].
    rewrite tried_until_success_app_found by exact Hs.
    rewrite firstn_app.
    replace (tried_until_success E us - length us) with 0
      by (pose proof (tried_until_success_le E _ Hs); lia).
    rewrite existsb_app, Hs. cbn [firstn]. rewrite app_nil_r.
    split; [exact Hu | reflexivity].
  - assert (Hall : tried_until_success E us = length us).
    { pose proof (tried_until_success_app_missed E us [] Hs) as H.
      rewrite app_nil_r in H. simpl in H. lia. }
    rewrite Hall, firstn_all in Hu.
    destruct (php_attempt_spec E url) as [Pu Ps]. rewrite <- Hphp in Pu, Ps.
    destruct (php_attempt E url) as [ev2 r2]. cbn [fst snd] in Pu, Ps.
    rewrite tried_until_success_app_missed by exact Hs.
    rewrite firstn_app, firstn_all2 by lia.
    replace (length us + tried_until_success E [php] - length us)
      with (tried_until_success E [php]) by lia.
    rewrite existsb_app, Hs. cbn [orb].
    assert (Hone : tried_until_success E [php] = 1)
      by (simpl; destruct (succeeds E php); reflexivity).
    rewrite Hone.
    destruct r2 as [chs |]; cbn [fst snd is_returned];
      rewrite fetched_urls_app, Hu, Pu; simpl; rewrite Ps; split; reflexivity.
Qed.

Lemma fetchPlaylist_strategy_order_witness :
  cache_miss env_offline /\
  fetched_urls (fst (fetchPlaylist env_offline PLAYLIST_URL)) =
    firstn (tried_until_success env_offline (strategy_urls PLAYLIST_URL))
      (strategy_urls PLAYLIST_URL) /\
  is_returned (snd (fetchPlaylist env_offline PLAYLIST_URL)) =
    existsb (succeeds env_offline) (strategy_urls PLAYLIST_URL).
Proof.
  split; [exact I |].
  apply (fetchPlaylist_strategy_order env_offline PLAYLIST_URL). exact I.
Defined.

(** *** Channel name *)

Lemma name_match_first_comma :
  forall pre rest,
    comma_free pre = true -> rest <> "" -> all_non_terminators rest = true ->
    name_match (pre ++ String comma rest) = Some rest.
Proof.
  intros pre rest Hpre Hne Hterm. induction pre as [| c pre IH]; simpl.
  - replace (Ascii.eqb comma comma) with true by (symmetry; apply Ascii.eqb_refl).
    destruct rest as [| r rest']; [congruence |].
    cbn [negb String.eqb andb]. rewrite Hterm. reflexivity.
  - simpl in Hpre. apply andb_prop in Hpre as [Hc Hpre].
    apply negb_true_iff in Hc. rewrite Hc. simpl. exact (IH Hpre).
Qed.

Lemma name_match_comma_free :
  forall line, comma_free line = true -> name_match line = None.
Proof.
  intros line. induction line as [| c line IH]; simpl; [reflexivity |].
  intros H. apply andb_prop in H as [Hc H].
  apply negb_true_iff in Hc. rewrite Hc. simpl. exact (IH H).
Qed.

Lemma apply_attr_name : forall c kv, name (apply_attr c kv) = name c.
Proof.
  intros c [k v]. unfold apply_attr.
  repeat match goal with |- context [if ?b then _ else _] => destruct b end;
  reflexivity.
Qed.

Lemma fold_apply_attr_name :
  forall l c, name (fold_left apply_attr l c) = name c.
Proof.
  intros l. induction l as [| kv l IH]; intros c; simpl; [reflexivity |].
  rewrite IH. apply apply_attr_name.
Qed.

Lemma name_match_trailing_comma :
  forall pre, comma_free pre = true -> name_match (pre ++ String comma "") = None.
Proof.
  intros pre. induction pre as [| c pre IH]; simpl.
  - intros _. replace (Ascii.eqb comma comma) with true by (symmetry; apply Ascii.eqb_refl).
    reflexivity.
  - intros H. apply andb_prop in H as [Hc H].
    apply negb_true_iff in Hc. rewrite Hc. simpl. exact (IH H).
Qed.

Lemma parseExtInf_name_no_match :
  forall line, name_match line = None ->
    let ch := parseExtInf line in
    name ch = if String.eqb (tvgName ch) "" then "Unknown Channel" else tvgName ch.
Proof.
  intros line Hm. cbv zeta. unfold parseExtInf. rewrite Hm.
  set (c1 := fold_left apply_attr _ default_extinf).
  assert (Hn : name c1 = "Unknown Channel")
    by (unfold c1; rewrite fold_apply_attr_name; reflexivity).
  rewrite Hn, String.eqb_refl. cbn [andb].
  destruct (String.eqb (tvgName c1) "") eqn:Ht;
    cbn [negb name tvgName set_name]; rewrite ?Ht, ?Hn; reflexivity.
Qed.

(** C4 (corrected): the name is the text after the FIRST comma, trimmed,
    when that comma is followed by text free of line terminators and the
    trimmed text is not the literal [Unknown Channel]; when the line has no
    comma, or its only comma ends the line, the name is the [tvg-name]
    attribute when non-empty, else [Unknown Channel]. *)
Theorem parseExtInf_name_first_comma :
  (forall pre rest,
     comma_free pre = true -> rest <> "" -> all_non_terminators rest = true ->
     trim rest <> "Unknown Channel" ->
     name (parseExtInf (pre ++ String comma rest)) = trim rest) /\
  (forall line,
     (comma_free line = true \/
      exists pre, comma_free pre = true /\ line = pre ++ String comma "") ->
     let ch := parseExtInf line in
     name ch = if String.eqb (tvgName ch) "" then "Unknown Channel" else tvgName ch).
Proof.
  split.
  - intros pre rest Hpre Hne Hterm Hunk. unfold parseExtInf.
    rewrite (name_match_first_comma pre rest Hpre Hne Hterm).
    set (c1 := fold_left apply_attr _ default_extinf).
    cbn [name tvgName set_name].
    apply String.eqb_neq in Hunk. rewrite Hunk. reflexivity.
  - intros line [Hline | [pre [Hpre ->]]]; apply parseExtInf_name_no_match.
    + exact (name_match_comma_free line Hline).
    + exact (name_match_trailing_comma pre Hpre).
Qed.

Lemma parseExtInf_name_first_comma_witness :
  name (parseExtInf ("#EXTINF:-1" ++ String comma "Foo, Bar")) = "Foo, Bar" /\
  name (parseExtInf ("#EXTINF:-1 tvg-name=" ++ quoted "X" ++ String comma "")) = "X".
Proof.
  split.
  - rewrite (proj1 parseExtInf_name_first_comma "#EXTINF:-1" "Foo, Bar");
      [reflexivity | reflexivity | discriminate | reflexivity | discriminate].
  - rewrite (proj2 parseExtInf_name_first_comma
               ("#EXTINF:-1 tvg-name=" ++ quoted "X" ++ String comma "")).
    + vm_compute; reflexivity.
    + right; exists ("#EXTINF:-1 tvg-name=" ++ quoted "X"); split.
      * vm_compute; reflexivity.
      * reflexivity.
Defined.

(** ** Search *)

Lemma lower_char_ws : forall c, is_ws (lower_char c) = is_ws c.
Proof. intros [[] [] [] [] [] [] [] []]; reflexivity. Qed.

Lemma toLowerCase_eqb_empty :
  forall s, String.eqb (toLowerCase s) "" = String.eqb s "".
Proof. intros [| c s]; reflexivity. Qed.

Lemma trim_start_lower :
  forall s, trim_start (toLowerCase s) = toLowerCase (trim_start s).
Proof.
  intros s. induction s as [| c s IH]; simpl; [reflexivity |].
  rewrite lower_char_ws. destruct (is_ws c); [exact IH | reflexivity].
Qed.

Lemma trim_end_lower :
  forall s, trim_end (toLowerCase s) = toLowerCase (trim_end s).
Proof.
  intros s. induction s as [| c s IH]; simpl; [reflexivity |].
  rewrite IH, lower_char_ws, toLowerCase_eqb_empty.
  destruct (is_ws c && String.eqb (trim_end s) ""); reflexivity.
Qed.

Lemma trim_lower : forall s, trim (toLowerCase s) = toLowerCase (trim s).
Proof. intros s. unfold trim. rewrite trim_start_lower. apply trim_end_lower. Qed.

Lemma includes_empty_haystack :
  forall t, String.eqb t "" = false -> includes "" t = false.
Proof. intros [| c t] H; [discriminate | reflexivity]. Qed.

(** C7: a blank query ([""] or only whitespace) yields [[]]; any other
    query yields exactly the channels whose name, group, country or
    language contains the trimmed query, compared lower-cased. *)
Theorem search_spec :
  forall (channels : list channel) (query : string),
    search channels query = spec_search channels query.
Proof.
  intros channels query. unfold search, spec_search.
  destruct (String.eqb (trim query) "") eqn:Hblank.
  - rewrite orb_true_r. reflexivity.
  - assert (Hq : String.eqb query "" = false)
      by (destruct query; [discriminate | reflexivity]).
    rewrite Hq. cbn [orb].
    assert (Ht : String.eqb (trim (toLowerCase query)) "" = false)
      by (rewrite trim_lower, toLowerCase_eqb_empty; exact Hblank).
    rewrite trim_lower in Ht |- *. unfold ci_includes.
    induction channels as [| ch chs IH]; simpl; [reflexivity |].
    rewrite IH.
    destruct (String.eqb (country (info ch)) "") eqn:Hc;
      [apply String.eqb_eq in Hc; rewrite Hc; change (toLowerCase "") with "";
       rewrite (includes_empty_haystack _ Ht) |];
    (destruct (String.eqb (language (info ch)) "") eqn:Hl;
      [apply String.eqb_eq in Hl; rewrite Hl; change (toLowerCase "") with "";
       rewrite (includes_empty_haystack _ Ht) |]);
    simpl; rewrite ?orb_false_r; reflexivity.
Qed.

(** ** Focus history *)

Lemma finish_history :
  forall ce s n, focusHistory (final (finish ce s n)) = focusHistory s.
Proof.
  intros ce s [e' |]; unfold finish; [| reflexivity].
  destruct ce as [e |]; [destruct (Nat.eqb e e') |]; reflexivity.
Qed.

Lemma move_history :
  forall ce s d, focusHistory (final (move ce s d)) = focusHistory s.
Proof.
  intros ce s d. unfold move.
  destruct d;
  repeat match goal with
         | |- context [if ?b then _ else _] => destruct b
         | |- context [match ?o with Some _ => _ | None => _ end] => destruct o
         end;
  rewrite ?finish_history; reflexivity.
Qed.

Lemma sync_cursor_history : forall s, focusHistory (sync_cursor s) = focusHistory s.
Proof.
  intros s. unfold sync_cursor.
  destruct (focusedElement s); [destruct (locate (grid s) e) as [[r c] |] |]; reflexivity.
Qed.

Lemma updateFocusableElements_history :
  forall E s, focusHistory (updateFocusableElements E s) = focusHistory s.
Proof. intros E s. unfold updateFocusableElements. destruct (negb _); reflexivity. Qed.

Lemma navigate_history :
  forall E s d, focusHistory (final (navigate E s d)) = focusHistory s.
Proof.
  intros E s d. unfold navigate.
  set (s1 := match grid s with [] => updateFocusableElements E s | _ => s end).
  assert (H1 : focusHistory s1 = focusHistory s)
    by (unfold s1; destruct (grid s); [apply updateFocusableElements_history | reflexivity]).
  destruct (grid s1); [exact H1 |].
  rewrite move_history, sync_cursor_history. exact H1.
Qed.

Lemma select_history_bound :
  forall s, length (focusHistory s) <= 20 -> length (focusHistory (final (select s))) <= 20.
Proof.
  intros s H. unfold select. destruct (focusedElement s) as [e |]; [| exact H].
  cbn [final focusHistory with_history done].
  set (pushed := (focusHistory s ++ _)%list).
  assert (Hp : length pushed = length (focusHistory s) + 1)
    by (unfold pushed; rewrite length_app; reflexivity).
  destruct (20 <? length pushed) eqn:Hlt.
  - apply Nat.ltb_lt in Hlt.
    destruct pushed as [| x l]; simpl in Hp |- *; lia.
  - apply Nat.ltb_ge in Hlt. exact Hlt.
Qed.

Lemma back_history_bound :
  forall E s, length (focusHistory s) <= 20 ->
    length (focusHistory (final (back E s))) <= 20.
Proof.
  intros E s H. unfold back.
  destruct (isPlayerActive s); [destruct (has_method _ _); exact H |].
  destruct (negb _); [destruct (has_method _ _); exact H |].
  destruct (focusHistory s) as [| h t] eqn:Hh; [simpl; rewrite Hh; simpl; lia |].
  assert (Hr : length (removelast (h :: t)) <= length (h :: t)).
  { clear. revert h. induction t as [| x t IH]; intros h; [simpl; lia |].
    change (removelast (h :: x :: t)) with (h :: removelast (x :: t)).
    simpl. specialize (IH x). simpl in IH. lia. }
  destruct (attached E _); cbn [setFocus final done with_focus with_history focusHistory]; lia.
Qed.

Lemma step_history_bound :
  forall E o s, length (focusHistory s) <= 20 ->
    length (focusHistory (final (step E o s))) <= 20.
Proof.
  intros E o s H. destruct o as [d | | |]; simpl.
  - rewrite navigate_history. exact H.
  - apply select_history_bound, H.
  - apply back_history_bound, H.
  - unfold toggleFavorite.
    destruct (focusedElement s); [destruct (favorite_button E e) |]; exact H.
Qed.

(** C6: from a history of at most 20 entries (the initial one is empty),
    no run of remote-control operations grows it past 20; a [select] on a
    full history appends the new entry and drops the oldest (the head),
    keeping the other 20 in order. *)
Theorem focus_history_bounded :
  (forall (E : Navigation.env) (ops : list op) (s : state),
     length (focusHistory s) <= 20 -> length (focusHistory (run E ops s)) <= 20) /\
  (forall (s : state) (e : element),
     focusedElement s = Some e -> length (focusHistory s) = 20 ->
     focusHistory (final (select s)) =
       tl (focusHistory s ++ [{| h_element := e; h_section := currentSection s |}])).
Proof.
  split.
  - intros E ops. induction ops as [| o ops IH]; intros s H; simpl; [exact H |].
    apply IH, step_history_bound, H.
  - intros s e He Hlen. unfold select. rewrite He.
    cbn [final focusHistory with_history].
    rewrite length_app, Hlen. reflexivity.
Qed.

Lemma focus_history_bounded_witness :
  length (focusHistory (run page [Navigate Down; Select; Select; Back] idle)) <= 20 /\
  focusHistory (final (select (with_history (with_focus idle 3)
    (repeat {| h_element := 1; h_section := "home" |} 20)))) =
  tl (repeat {| h_element := 1; h_section := "home" |} 20 ++
      [{| h_element := 3; h_section := "home" |}]).
Proof.
  split.
  - apply (proj1 focus_history_bounded). simpl. lia.
  - apply (proj2 focus_history_bounded); reflexivity.
Defined.

(** ** Grid builder: what the grid can contain *)

Lemma bucket_push_in :
  forall k e b x, In x (concat (map snd (bucket_push k e b))) ->
    x = e \/ In x (concat (map snd b)).
Proof.
  intros k e b x. induction b as [| [k' es] b IH]; simpl.
  - intros [H | []]; left; congruence.
  - destruct (k =? k')%Z; [| destruct (k <? k')%Z]; simpl.
    + rewrite <- app_assoc. intros H. apply in_app_or in H as [H | H].
      * right. apply in_or_app. left. exact H.
      * simpl in H. destruct H as [H | H]; [left; congruence |].
        right. apply in_or_app. right. exact H.
    + intros [H | H]; [left; congruence | right; exact H].
    + intros H. apply in_app_or in H as [H | H].
      * right. apply in_or_app. left. exact H.
      * destruct (IH H) as [H' | H']; [left; exact H' | right; apply in_or_app; right; exact H'].
Qed.

Lemma bucket_fold_in :
  forall rect els b x,
    In x (concat (map snd (fold_left (fun b e =>
      let row := row_of rect e in
      if is_array_index row then bucket_push row e b else b) els b))) ->
    In x (concat (map snd b)) \/ (In x els /\ is_array_index (row_of rect x) = true).
Proof.
  intros rect els. induction els as [| e els IH]; intros b x H; simpl in H.
  - left. exact H.
  - destruct (IH _ _ H) as [H' | [Hin Hidx]]; [| right; split; [right; exact Hin | exact Hidx]].
    destruct (is_array_index (row_of rect e)) eqn:He; [| left; exact H'].
    destruct (bucket_push_in _ _ _ _ H') as [Hx | Hx]; [| left; exact Hx].
    subst x. right. split; [left; reflexivity | exact He].
Qed.

Lemma insert_by_left_in :
  forall rect e l x, In x (insert_by_left rect e l) -> x = e \/ In x l.
Proof.
  intros rect e l x. induction l as [| h t IH]; simpl.
  - intros [H | []]; left; congruence.
  - destruct (left (rect e) <? left (rect h))%Z; simpl.
    + intros [H | H]; [left; congruence | right; exact H].
    + intros [H | H]; [right; left; exact H |].
      destruct (IH H) as [H' | H']; [left; exact H' | right; right; exact H'].
Qed.

Lemma sort_fold_in :
  forall rect l acc x,
    In x (fold_left (fun acc e => insert_by_left rect e acc) l acc) -> In x acc \/ In x l.
Proof.
  intros rect l. induction l as [| e l IH]; intros acc x H; simpl in H.
  - left. exact H.
  - destruct (IH _ _ H) as [H' | H']; [| right; right; exact H'].
    destruct (insert_by_left_in _ _ _ _ H') as [Hx | Hx]; [right; left; congruence | left; exact Hx].
Qed.

Lemma buildGrid_in :
  forall rect els x, In x (concat (buildGrid rect els)) ->
    In x els /\ is_array_index (row_of rect x) = true.
Proof.
  intros rect els x H. unfold buildGrid in H.
  apply in_concat in H as [row [Hrow Hx]].
  apply in_map_iff in Hrow as [r0 [Hr0 Hin]]. subst row.
  apply filter_In in Hin as [Hin _].
  unfold sort_by_left in Hx.
  destruct (sort_fold_in _ _ _ _ Hx) as [[] | Hx'].
  assert (Hb : In x (concat (map snd (bucket_all rect els))))
    by (apply in_concat; exists r0; split; assumption).
  unfold bucket_all in Hb.
  destruct (bucket_fold_in _ _ _ _ Hb) as [[] | H']. exact H'.
Qed.

(** C10: a node whose bounding top is negative has band
    [floor(top / 80) < 0], which is no array index, so it is in no row of
    the grid [updateFocusableElements] builds. *)
Theorem grid_excludes_negative_top :
  forall (E : Navigation.env) (s : state) (e : element),
    section_present E = true ->
    (top (rect_of E e) < 0)%Z ->
    (row_of (rect_of E) e < 0)%Z /\
    forall row, In row (grid (updateFocusableElements E s)) -> ~ In e row.
Proof.
  intros E s e Hsec Htop.
  assert (Hneg : (row_of (rect_of E) e < 0)%Z).
  { unfold row_of. apply Z.div_lt_upper_bound; lia. }
  split; [exact Hneg |].
  intros row Hrow Hin.
  unfold updateFocusableElements in Hrow. rewrite Hsec in Hrow. simpl in Hrow.
  assert (Hc : In e (concat (buildGrid (rect_of E)
            (if isPlayerActive s then player_focusables E
             else header_focusables E ++ section_focusables E))))
    by (apply in_concat; exists row; split; assumption).
  destruct (buildGrid_in _ _ _ Hc) as [_ Hidx].
  unfold is_array_index in Hidx. apply andb_prop in Hidx as [H0 _].
  apply Z.leb_le in H0. lia.
Qed.

Lemma grid_excludes_negative_top_witness :
  section_present page_scrolled = true /\ (top (rect_of page_scrolled 3%nat) < 0)%Z /\
  (row_of (rect_of page_scrolled) 3%nat < 0)%Z /\
  forall row, In row (grid (updateFocusableElements page_scrolled idle)) -> ~ In 3%nat row.
Proof.
  split; [reflexivity |]. split; [simpl; lia |].
  apply (grid_excludes_negative_top page_scrolled idle 3); [reflexivity | simpl; lia].
Defined.

(** ** Navigation: moving right from the last column *)

Lemma index_of_some_in : forall row e c, index_of row e = Some c -> In e row.
Proof.
  intros row e. induction row as [| x row IH]; intros c H; simpl in H; [discriminate |].
  destruct (Nat.eqb x e) eqn:Hx.
  - apply Nat.eqb_eq in Hx. left. exact Hx.
  - destruct (index_of row e) as [c' |] eqn:H'; [| discriminate].
    right. exact (IH c' eq_refl).
Qed.

Lemma index_of_none_notin : forall row e, index_of row e = None -> ~ In e row.
Proof.
  intros row e. induction row as [| x row IH]; simpl; [intros _ [] |].
  destruct (Nat.eqb x e) eqn:Hx; [discriminate |].
  destruct (index_of row e); [discriminate |].
  intros _ [H | H]; [apply Nat.eqb_neq in Hx; contradiction | exact (IH eq_refl H)].
Qed.

Lemma locate_from_some :
  forall g k e r c, locate_from k g e = Some (r, c) ->
    exists i row, nth_error g i = Some row /\ r = Z.of_nat (k + i) /\ In e row.
Proof.
  intros g. induction g as [| row g IH]; intros k e r c H; simpl in H; [discriminate |].
  destruct (index_of row e) as [c' |] eqn:Hc.
  - injection H as Hr _. exists 0, row. repeat split; [lia |].
    exact (index_of_some_in _ _ _ Hc).
  - destruct (IH _ _ _ _ H) as [i [row' [Hn [Hr Hin]]]].
    exists (S i), row'. repeat split; [exact Hn | lia | exact Hin].
Qed.

Lemma locate_from_none :
  forall g k e, locate_from k g e = None -> forall row, In row g -> ~ In e row.
Proof.
  intros g. induction g as [| row g IH]; intros k e H row' Hrow; simpl in *; [contradiction |].
  destruct (index_of row e) eqn:Hc; [discriminate |].
  destruct Hrow as [Hrow | Hrow]; [subst row'; exact (index_of_none_notin _ _ Hc) |].
  exact (IH _ _ H row' Hrow).
Qed.

Lemma NoDup_app_disjoint :
  forall (l1 l2 : list element) x, NoDup (l1 ++ l2) -> In x l1 -> In x l2 -> False.
Proof.
  intros l1. induction l1 as [| a l1 IH]; intros l2 x Hnd H1 H2; [contradiction |].
  simpl in Hnd. apply NoDup_cons_iff in Hnd as [Ha Hnd].
  destruct H1 as [H1 | H1].
  - subst a. apply Ha. apply in_or_app. right. exact H2.
  - exact (IH l2 x Hnd H1 H2).
Qed.

Lemma NoDup_concat_same_row :
  forall (g : list (list element)) i j a b x,
    NoDup (concat g) -> nth_error g i = Some a -> nth_error g j = Some b ->
    In x a -> In x b -> i = j.
Proof.
  intros g. induction g as [| row g IH]; intros i j a b x Hnd Hi Hj Ha Hb.
  - destruct i; discriminate.
  - simpl in Hnd.
    destruct i as [| i], j as [| j]; simpl in Hi, Hj; try reflexivity.
    + injection Hi as Hi. subst a. exfalso. apply (NoDup_app_disjoint row (concat g) x Hnd Ha).
      apply in_concat. exists b. split; [exact (nth_error_In _ _ Hj) | exact Hb].
    + injection Hj as Hj. subst b. exfalso. apply (NoDup_app_disjoint row (concat g) x Hnd Hb).
      apply in_concat. exists a. split; [exact (nth_error_In _ _ Hi) | exact Ha].
    + f_equal. exact (IH i j a b x (NoDup_app_remove_l _ _ Hnd) Hi Hj Ha Hb).
Qed.

Lemma idx_some :
  forall {A} (l : list A) i x, idx l i = Some x -> (0 <= i)%Z /\ nth_error l (Z.to_nat i) = Some x.
Proof.
  intros A l i x. unfold idx. destruct (i <? 0)%Z eqn:Hi; [discriminate |].
  apply Z.ltb_ge in Hi. intros H. split; assumption.
Qed.

Lemma sync_cursor_fields :
  forall s, grid (sync_cursor s) = grid s /\
            focusedElement (sync_cursor s) = focusedElement s /\
            (currentRow (sync_cursor s), currentCol (sync_cursor s)) = position s.
Proof.
  intros s. unfold sync_cursor, position.
  destruct (focusedElement s) as [e |] eqn:Hf; [| repeat split; exact Hf].
  destruct (locate (grid s) e) as [[r c] |]; repeat split; exact Hf.
Qed.

Lemma navigate_nonempty :
  forall E s d, grid s <> [] -> navigate E s d = move (focusedElement s) (sync_cursor s) d.
Proof.
  intros E s d Hg. unfold navigate.
  destruct (grid s) as [| row g] eqn:Hgs; [congruence |].
  cbv zeta. rewrite Hgs. reflexivity.
Qed.

(** C5: in a grid built from distinct nodes with no empty row, when the
    cursor [navigate] moves from (the focused node's position, or the
    fallback fields when focus is not in the grid) is the last column of
    row [r], [navigate('right')] does not throw; it focuses column 0 of
    row [r + 1] when [r] is not the final row, and otherwise leaves the
    focus and the cursor [(r, last column)] as they are. *)
Theorem navigate_right_last_column :
  forall (E : Navigation.env) (s : state) (r : Z) (row : list element),
    wf_grid (grid s) ->
    idx (grid s) r = Some row ->
    position s = (r, len row - 1)%Z ->
    raised (navigate E s Right) = false /\
    ((r < len (grid s) - 1)%Z ->
       exists x rest, idx (grid s) (r + 1) = Some (x :: rest) /\
         focusedElement (final (navigate E s Right)) = Some x /\
         currentRow (final (navigate E s Right)) = (r + 1)%Z /\
         currentCol (final (navigate E s Right)) = 0%Z) /\
    (r = (len (grid s) - 1)%Z ->
       focusedElement (final (navigate E s Right)) = focusedElement s /\
       currentRow (final (navigate E s Right)) = r /\
       currentCol (final (navigate E s Right)) = (len row - 1)%Z).
Proof.
  intros E s r row [Hne Hnd] Hidx Hpos.
  destruct (idx_some _ _ _ Hidx) as [Hr0 Hnth].
  assert (Hg : grid s <> []).
  { intros H. rewrite H in Hnth. destruct (Z.to_nat r); discriminate. }
  rewrite navigate_nonempty by exact Hg.
  destruct (sync_cursor_fields s) as [Hsg [Hsf Hsp]].
  rewrite Hpos in Hsp. injection Hsp as Hsr Hsc.
  unfold move. cbv zeta. rewrite Hsg, Hsr, Hsc, Hidx, Z.ltb_irrefl.
  destruct (r <? len (grid s) - 1)%Z eqn:Hlt.
  - apply Z.ltb_lt in Hlt.
    destruct (nth_error (grid s) (Z.to_nat (r + 1))) as [row' |] eqn:Hn'.
    2:{ exfalso. apply nth_error_None in Hn'. unfold len in Hlt. lia. }
    assert (Hidx' : idx (grid s) (r + 1) = Some row').
    { unfold idx. destruct (r + 1 <? 0)%Z eqn:H; [apply Z.ltb_lt in H; lia | exact Hn']. }
    rewrite Hidx'.
    destruct row' as [| x rest].
    { exfalso. rewrite Forall_forall in Hne. exact (Hne [] (nth_error_In _ _ Hn') eq_refl). }
    assert (Hneq : forall e, focusedElement s = Some e -> e <> x).
    { intros e He Hex. subst e. unfold position in Hpos. rewrite He in Hpos.
      destruct (locate (grid s) x) as [[r1 c1] |] eqn:Hl.
      - injection Hpos as Hr1 _. subst r1.
        destruct (locate_from_some _ _ _ _ _ Hl) as [i [row0 [Hn0 [Hri Hin0]]]].
        assert (Hij := NoDup_concat_same_row _ _ _ _ _ x Hnd Hn0 Hn' Hin0 (or_introl eq_refl)).
        lia.
      - exact (locate_from_none _ _ _ Hl (x :: rest) (nth_error_In _ _ Hn') (or_introl eq_refl)). }
    change (idx (x :: rest) 0) with (Some x).
    unfold finish.
    destruct (focusedElement s) as [e |] eqn:Hf.
    + destruct (Nat.eqb e x) eqn:Hex.
      { exfalso. apply Nat.eqb_eq in Hex. exact (Hneq e eq_refl Hex). }
      cbn [setFocus done final raised focusedElement currentRow currentCol with_focus with_cursor].
      split; [reflexivity |]. split; [| intros; lia].
      intros _. exists x, rest. repeat split; exact Hidx'.
    + cbn [setFocus done final raised focusedElement currentRow currentCol with_focus with_cursor].
      split; [reflexivity |]. split; [| intros; lia].
      intros _. exists x, rest. repeat split; exact Hidx'.
  - apply Z.ltb_ge in Hlt.
    cbn [done final raised]. split; [reflexivity |]. split; [intros; lia |].
    intros _. rewrite Hsf, Hsr, Hsc. repeat split.
Qed.

Lemma navigate_right_last_column_witness :
  raised (navigate page (with_focus (with_grid idle [[1; 2]; [3]]) 2) Right) = false /\
  focusedElement (final (navigate page (with_focus (with_grid idle [[1; 2]; [3]]) 2) Right))
    = Some 3%nat.
Proof.
  destruct (navigate_right_last_column page (with_focus (with_grid idle [[1; 2]; [3]]) 2)
              0 [1; 2]) as [Hraise [Hnext _]].
  - split; [repeat constructor; discriminate | repeat constructor; simpl; intuition lia].
  - reflexivity.
  - reflexivity.
  - split; [exact Hraise |].
    destruct (Hnext ltac:(simpl; lia)) as [x [rest [Hx [Hf _]]]].
    simpl in Hx. injection Hx as Hx _. subst x. exact Hf.
Defined.

(** * Further properties of the modelled code *)
Import Catalog Focus PlayerTime Keys.

Lemma apply_attr_group_nonempty :
  forall c kv, group c <> "" -> group (apply_attr c kv) <> "".
Proof.
  intros c [key value] Hc. unfold apply_attr.
  destruct (String.eqb (toLowerCase key) "tvg-logo"); [exact Hc |].
  destruct (String.eqb (toLowerCase key) "tvg-name"); [exact Hc |].
  destruct (String.eqb (toLowerCase key) "tvg-id"); [exact Hc |].
  destruct (String.eqb (toLowerCase key) "group-title").
  - simpl. destruct (String.eqb value "") eqn:Hv; [discriminate |].
    intros H. subst value. discriminate.
  - destruct (String.eqb (toLowerCase key) "tvg-language"); [exact Hc |].
    destruct (String.eqb (toLowerCase key) "tvg-country"); exact Hc.
Qed.

Lemma fold_apply_attr_group_nonempty :
  forall kvs c, group c <> "" -> group (fold_left apply_attr kvs c) <> "".
Proof.
  intros kvs. induction kvs as [| kv kvs IH]; intros c Hc; simpl; [exact Hc |].
  apply IH. apply apply_attr_group_nonempty. exact Hc.
Qed.

(** X1: the group of a parsed metadata line is never empty: it starts as Uncategorized and an empty group-title value is replaced by Uncategorized. *)
Theorem parseExtInf_group_nonempty : forall line, group (parseExtInf line) <> "".
Proof.
  intros line. unfold parseExtInf.
  set (c1 := fold_left apply_attr _ default_extinf).
  assert (H1 : group c1 <> "") by (apply fold_apply_attr_group_nonempty; discriminate).
  set (c2 := match name_match line with Some m => set_name c1 (trim m) | None => c1 end).
  assert (H2 : group c2 <> "") by (unfold c2; destruct (name_match line); exact H1).
  destruct (String.eqb (name c2) "Unknown Channel" && negb (String.eqb (tvgName c2) ""));
    exact H2.
Qed.

Lemma parse_lines_urls :
  forall lines cur ch, In ch (parse_lines lines cur) ->
    In (url ch) (map trim lines) /\ startsWith (url ch) "http" = true /\
    id ch = generateId (info ch) (url ch).
Proof.
  intros lines. induction lines as [| raw lines IH]; intros cur ch H; simpl in H; [contradiction |].
  destruct (String.eqb (trim raw) "").
  { destruct (IH _ _ H) as [H1 H2]. split; [right; exact H1 | exact H2]. }
  destruct (startsWith (trim raw) "#EXTINF:").
  { destruct (IH _ _ H) as [H1 H2]. split; [right; exact H1 | exact H2]. }
  destruct (startsWith (trim raw) "http") eqn:Hh.
  - destruct cur as [c |].
    + destruct H as [H | H].
      * subst ch. simpl. split; [left; reflexivity | split; [exact Hh | reflexivity]].
      * destruct (IH _ _ H) as [H1 H2]. split; [right; exact H1 | exact H2].
    + destruct (IH _ _ H) as [H1 H2]. split; [right; exact H1 | exact H2].
  - destruct (IH _ _ H) as [H1 H2]. split; [right; exact H1 | exact H2].
Qed.

(** X2: every channel [parse] returns has as URL one of the trimmed lines of the playlist, that URL starts with http, and its id is [generateId] of its metadata and that URL. *)
Theorem parse_channel_urls :
  forall content ch, In ch (parse content) ->
    In (url ch) (map trim (split_nl content)) /\ startsWith (url ch) "http" = true /\
    id ch = generateId (info ch) (url ch).
Proof.
  intros content ch H. exact (parse_lines_urls _ _ _ H).
Qed.

Lemma parse_channel_urls_witness :
  In (nth 1 (parse sample_playlist) sample_channel) (parse sample_playlist) /\
  url (nth 1 (parse sample_playlist) sample_channel) = "http://two" /\
  In (url (nth 1 (parse sample_playlist) sample_channel)) (map trim (split_nl sample_playlist)).
Proof.
  assert (H : In (nth 1 (parse sample_playlist) sample_channel) (parse sample_playlist))
    by (apply nth_In; vm_compute; lia).
  split; [exact H | split; [vm_compute; reflexivity | exact (proj1 (parse_channel_urls _ _ H))]].
Defined.

Lemma split_nl_app :
  forall a b, no_newline a = true -> split_nl (a ++ String newline b) = a :: split_nl b.
Proof.
  intros a b. induction a as [| c a IH]; intros Ha.
  - simpl. reflexivity.
  - simpl in Ha. apply andb_prop in Ha as [Hc Ha].
    simpl. apply negb_true_iff in Hc. rewrite Hc, (IH Ha). reflexivity.
Qed.

Lemma split_nl_single : forall a, no_newline a = true -> split_nl a = [a].
Proof.
  intros a. induction a as [| c a IH]; intros Ha; [reflexivity |].
  simpl in Ha. apply andb_prop in Ha as [Hc Ha].
  simpl. apply negb_true_iff in Hc. rewrite Hc, (IH Ha). reflexivity.
Qed.

Lemma split_join :
  forall ls, ls <> [] -> Forall (fun l => no_newline l = true) ls -> split_nl (join_nl ls) = ls.
Proof.
  intros ls. induction ls as [| l ls IH]; intros Hne Hall; [congruence |].
  inversion Hall as [| ? ? Hl Hls]; subst.
  destruct ls as [| l' ls].
  - simpl. apply split_nl_single. exact Hl.
  - change (join_nl (l :: l' :: ls)) with (l ++ String newline (join_nl (l' :: ls))).
    rewrite (split_nl_app _ _ Hl), IH; [reflexivity | discriminate | exact Hls].
Qed.

Lemma parse_join :
  forall ls, Forall (fun l => no_newline l = true) ls -> parse (join_nl ls) = parse_lines ls None.
Proof.
  intros ls Hall. unfold parse. destruct ls as [| l ls]; [reflexivity |].
  rewrite split_join; [reflexivity | discriminate | exact Hall].
Qed.

Lemma extinf_not_blank :
  forall s, startsWith s "#EXTINF:" = true -> String.eqb s "" = false.
Proof. intros [| c s] H; [discriminate | reflexivity]. Qed.

Lemma http_not_extinf :
  forall s, startsWith s "http" = true ->
    String.eqb s "" = false /\ startsWith s "#EXTINF:" = false.
Proof.
  intros [| c s] H; [discriminate |]. split; [reflexivity |].
  unfold startsWith in *.
  change (String.prefix "http" (String c s)) with
    (if ascii_dec "h"%char c then String.prefix "ttp" s else false) in H.
  destruct (ascii_dec "h"%char c) as [Hc | Hc]; [| discriminate]. subst c. reflexivity.
Qed.

(** X3: a playlist made of entries, each a metadata line followed by a URL line, parses into one channel per entry, in order, built from the trimmed lines. *)
Theorem parse_well_formed_entries :
  forall entries : list (string * string),
    Forall (fun p => no_newline (fst p) = true /\ no_newline (snd p) = true /\
                     startsWith (trim (fst p)) "#EXTINF:" = true /\
                     startsWith (trim (snd p)) "http" = true) entries ->
    parse (join_nl (flat_map (fun p => [fst p; snd p]) entries)) =
    map (fun p => mk_channel (parseExtInf (trim (fst p))) (trim (snd p))) entries.
Proof.
  intros entries Hall. rewrite parse_join.
  - induction entries as [| [m u] entries IH]; [reflexivity |].
    inversion Hall as [| ? ? [Hm [Hu [He Hh]]] Hrest]; subst. simpl in *.
    destruct (http_not_extinf _ Hh) as [Hu0 Hu1].
    rewrite (extinf_not_blank _ He), He, Hu0, Hu1, Hh.
    f_equal. exact (IH Hrest).
  - induction entries as [| [m u] entries IH]; [constructor |].
    inversion Hall as [| ? ? [Hm [Hu _]] Hrest]; subst.
    simpl. constructor; [exact Hm | constructor; [exact Hu | exact (IH Hrest)]].
Qed.

Lemma parse_well_formed_entries_witness :
  parse (join_nl (flat_map (fun p => [fst p; snd p]) [("#EXTINF:-1,Alpha", " http://a ")])) =
  [mk_channel (parseExtInf "#EXTINF:-1,Alpha") "http://a"].
Proof.
  rewrite parse_well_formed_entries.
  - vm_compute; reflexivity.
  - constructor; [vm_compute; repeat split | constructor].
Defined.


Lemma map_bump_keys :
  forall k m x, In x (map fst (map_bump k m)) <-> x = k \/ In x (map fst m).
Proof.
  intros k m x. induction m as [| [k' n] m IH]; simpl.
  - intuition.
  - destruct (String.eqb k' k) eqn:Hk; simpl.
    + apply String.eqb_eq in Hk. subst k'. intuition.
    + rewrite IH. intuition.
Qed.

Lemma map_bump_nodup :
  forall k m, NoDup (map fst m) -> NoDup (map fst (map_bump k m)).
Proof.
  intros k m. induction m as [| [k' n] m IH]; simpl; intros Hnd.
  - constructor; [intros [] | constructor].
  - apply NoDup_cons_iff in Hnd as [Hk' Hnd].
    destruct (String.eqb k' k) eqn:Hk; simpl; constructor; try assumption.
    + rewrite map_bump_keys. intros [H | H]; [| contradiction].
      subst k'. rewrite String.eqb_refl in Hk. discriminate.
    + apply IH. exact Hnd.
Qed.

Lemma map_bump_in :
  forall k m x n, NoDup (map fst m) -> In (x, n) (map_bump k m) ->
    (x <> k /\ In (x, n) m) \/
    (x = k /\ ((exists n0, In (k, n0) m /\ n = n0 + 1) \/ (~ In k (map fst m) /\ n = 1))).
Proof.
  intros k m. induction m as [| [k' n'] m IH]; intros x n Hnd H; simpl in H.
  - destruct H as [H | []]. injection H as Hx Hn. subst x n. right. split; [reflexivity |].
    right. split; [intros [] | reflexivity].
  - simpl in Hnd. apply NoDup_cons_iff in Hnd as [Hk' Hnd].
    destruct (String.eqb k' k) eqn:Hk.
    + apply String.eqb_eq in Hk. subst k'.
      destruct H as [H | H].
      * injection H as Hx Hn. subst x n. right. split; [reflexivity |].
        left. exists n'. split; [left; reflexivity | reflexivity].
      * left. split; [| right; exact H].
        intros Hx. subst x. apply Hk'. apply (in_map fst) in H. exact H.
    + destruct H as [H | H].
      * injection H as Hx Hn. subst x n. left. split; [| left; reflexivity].
        intros Hx. rewrite Hx, String.eqb_refl in Hk. discriminate.
      * destruct (IH _ _ Hnd H) as [[Hx Hin] | [Hx [[n0 [Hin Hn]] | [Hnin Hn]]]].
        -- left. split; [exact Hx | right; exact Hin].
        -- right. split; [exact Hx |]. left. exists n0. split; [right; exact Hin | exact Hn].
        -- right. split; [exact Hx |]. right. split; [| exact Hn].
           simpl. intros [H' | H']; [| contradiction].
           subst k'. rewrite String.eqb_refl in Hk. discriminate.
Qed.

Lemma map_bump_sum :
  forall k m, list_sum (map snd (map_bump k m)) = S (list_sum (map snd m)).
Proof.
  intros k m. induction m as [| [k' n] m IH]; simpl; [reflexivity |].
  destruct (String.eqb k' k); simpl; [lia | rewrite IH; lia].
Qed.

Lemma occurrences_snoc :
  forall k prefix ch,
    occurrences k (prefix ++ [ch]) =
    occurrences k prefix + (if String.eqb (group_key ch) k then 1 else 0).
Proof.
  intros k prefix ch. unfold occurrences. rewrite filter_app, length_app.
  simpl. destruct (String.eqb (group_key ch) k); reflexivity.
Qed.

Lemma occurrences_zero :
  forall k prefix, (forall ch, In ch prefix -> group_key ch <> k) -> occurrences k prefix = 0.
Proof.
  intros k prefix H. unfold occurrences.
  induction prefix as [| ch prefix IH]; simpl; [reflexivity |].
  destruct (String.eqb (group_key ch) k) eqn:Hk.
  - apply String.eqb_eq in Hk. exfalso. exact (H ch (or_introl eq_refl) Hk).
  - apply IH. intros ch' Hin. apply H. right. exact Hin.
Qed.

(** The invariant of the counting loop after the channels [prefix]. *)
Lemma count_groups_fold :
  forall chs m prefix,
    NoDup (map fst m) ->
    (forall k n, In (k, n) m -> n = occurrences k prefix) ->
    (forall k, In k (map fst m) <-> exists ch, In ch prefix /\ group_key ch = k) ->
    list_sum (map snd m) = length prefix ->
    let m' := fold_left (fun m ch => map_bump (group_key ch) m) chs m in
    NoDup (map fst m') /\
    (forall k n, In (k, n) m' -> n = occurrences k (prefix ++ chs)) /\
    (forall k, In k (map fst m') <-> exists ch, In ch (prefix ++ chs) /\ group_key ch = k) /\
    list_sum (map snd m') = length (prefix ++ chs).
Proof.
  intros chs. induction chs as [| ch chs IH]; intros m prefix Hnd Hcnt Hkeys Hsum m'.
  - subst m'. simpl. rewrite app_nil_r.
    split; [exact Hnd | split; [exact Hcnt | split; [exact Hkeys | exact Hsum]]].
  - subst m'. simpl.
    replace (prefix ++ ch :: chs)%list with ((prefix ++ [ch]) ++ chs)%list by (rewrite <- app_assoc; reflexivity).
    apply IH.
    + apply map_bump_nodup. exact Hnd.
    + intros k n H. rewrite occurrences_snoc.
      destruct (map_bump_in _ _ _ _ Hnd H) as [[Hx Hin] | [Hx [[n0 [Hin Hn]] | [Hnin Hn]]]].
      * rewrite (Hcnt _ _ Hin).
        destruct (String.eqb (group_key ch) k) eqn:Hk; [| lia].
        apply String.eqb_eq in Hk. congruence.
      * subst k. rewrite String.eqb_refl. rewrite (Hcnt _ _ Hin) in Hn. lia.
      * subst k. rewrite String.eqb_refl. rewrite occurrences_zero; [lia |].
        intros ch' Hin' Heq. apply Hnin. apply Hkeys. exists ch'. split; assumption.
    + intros k. rewrite map_bump_keys, Hkeys. split.
      * intros [Hk | [ch' [Hin Heq]]].
        -- exists ch. split; [apply in_or_app; right; left; reflexivity | congruence].
        -- exists ch'. split; [apply in_or_app; left; exact Hin | exact Heq].
      * intros [ch' [Hin Heq]]. apply in_app_or in Hin as [Hin | [Hin | []]].
        -- right. exists ch'. split; assumption.
        -- left. subst ch'. congruence.
    + rewrite map_bump_sum, Hsum, length_app. simpl. lia.
Qed.

Lemma insert_by_count_perm : forall e l, Permutation (insert_by_count e l) (e :: l).
Proof.
  intros e l. induction l as [| h t IH]; simpl; [reflexivity |].
  destruct (g_count h <? g_count e); [reflexivity |].
  rewrite IH. apply perm_swap.
Qed.

Lemma sort_by_count_fold_perm :
  forall l acc, Permutation (fold_left (fun acc e => insert_by_count e acc) l acc) (l ++ acc).
Proof.
  intros l. induction l as [| e l IH]; intros acc; simpl; [reflexivity |].
  rewrite IH, insert_by_count_perm. symmetry. apply Permutation_middle.
Qed.

Lemma sort_by_count_perm : forall l, Permutation (sort_by_count l) l.
Proof.
  intros l. unfold sort_by_count. rewrite sort_by_count_fold_perm, app_nil_r. reflexivity.
Qed.

Lemma insert_by_count_sorted :
  forall e l, Sorted (fun a b => g_count b <= g_count a) l ->
    Sorted (fun a b => g_count b <= g_count a) (insert_by_count e l).
Proof.
  intros e l. induction l as [| h t IH]; intros Hs; simpl.
  - repeat constructor.
  - destruct (g_count h <? g_count e) eqn:Hlt.
    + apply Nat.ltb_lt in Hlt. constructor; [exact Hs | constructor; lia].
    + apply Nat.ltb_ge in Hlt. apply Sorted_inv in Hs as [Ht Hh].
      constructor; [exact (IH Ht) |].
      destruct t as [| h' t']; simpl.
      * constructor. exact Hlt.
      * destruct (g_count h' <? g_count e); constructor; [exact Hlt |].
        inversion Hh. assumption.
Qed.

Lemma sort_by_count_sorted :
  forall l, Sorted (fun a b => g_count b <= g_count a) (sort_by_count l).
Proof.
  intros l. unfold sort_by_count.
  assert (H : forall l acc, Sorted (fun a b => g_count b <= g_count a) acc ->
            Sorted (fun a b => g_count b <= g_count a)
              (fold_left (fun acc e => insert_by_count e acc) l acc)).
  { intros l0. induction l0 as [| e l0 IH]; intros acc Hs; simpl; [exact Hs |].
    apply IH. apply insert_by_count_sorted. exact Hs. }
  apply H. constructor.
Qed.

Lemma count_groups_spec :
  forall chs,
    NoDup (map fst (count_groups chs)) /\
    (forall k n, In (k, n) (count_groups chs) -> n = occurrences k chs) /\
    (forall k, In k (map fst (count_groups chs)) <-> exists ch, In ch chs /\ group_key ch = k) /\
    list_sum (map snd (count_groups chs)) = length chs.
Proof.
  intros chs. exact (count_groups_fold chs [] [] (NoDup_nil _)
    ltac:(intros k n []) ltac:(intros k; simpl; split; [intros [] | intros [ch [[] _]]])
    eq_refl).
Qed.

Lemma getGroups_in :
  forall chs e, In e (getGroups chs) <-> In (g_name e, g_count e) (count_groups chs).
Proof.
  intros chs e. unfold getGroups. split.
  - intros H. apply (Permutation_in _ (sort_by_count_perm _)) in H.
    apply in_map_iff in H as [[k n] [Hkn Hin]]. subst e. exact Hin.
  - intros H. apply (Permutation_in _ (Permutation_sym (sort_by_count_perm _))).
    apply in_map_iff. exists (g_name e, g_count e). split; [destruct e; reflexivity | exact H].
Qed.

Lemma getGroups_names :
  forall chs, Permutation (map g_name (getGroups chs)) (map fst (count_groups chs)).
Proof.
  intros chs. unfold getGroups. rewrite (Permutation_map g_name (sort_by_count_perm _)).
  rewrite map_map. reflexivity.
Qed.

(** X6: [getGroups] lists every group name once, with counts in non-increasing order. *)
Theorem getGroups_distinct_sorted :
  forall chs,
    NoDup (map g_name (getGroups chs)) /\
    Sorted (fun a b => g_count b <= g_count a) (getGroups chs).
Proof.
  intros chs. split.
  - apply (Permutation_NoDup (Permutation_sym (getGroups_names chs))).
    apply count_groups_spec.
  - apply sort_by_count_sorted.
Qed.

(** X7: each count of [getGroups] is the number of channels in that group (an empty group counted as Uncategorized), every channel's group is listed, and the counts add up to the number of channels. *)
Theorem getGroups_counts :
  forall chs,
    (forall e, In e (getGroups chs) -> g_count e = occurrences (g_name e) chs) /\
    (forall ch, In ch chs -> exists e, In e (getGroups chs) /\ g_name e = group_key ch) /\
    list_sum (map g_count (getGroups chs)) = length chs.
Proof.
  intros chs. destruct (count_groups_spec chs) as [_ [Hcnt [Hkeys Hsum]]].
  split; [| split].
  - intros e He. apply getGroups_in in He. exact (Hcnt _ _ He).
  - intros ch Hch. assert (Hk : In (group_key ch) (map fst (count_groups chs)))
      by (apply Hkeys; exists ch; split; [exact Hch | reflexivity]).
    apply in_map_iff in Hk as [[k n] [Hk Hin]]. simpl in Hk. subst k.
    exists {| g_name := group_key ch; g_count := n |}. split; [| reflexivity].
    apply getGroups_in. exact Hin.
  - unfold getGroups. rewrite (Permutation_map g_count (sort_by_count_perm _)), map_map.
    exact Hsum.
Qed.

Lemma getGroups_counts_witness :
  In {| g_name := "Sport"; g_count := 1 |} (getGroups (parse sample_playlist)) /\
  1 = occurrences "Sport" (parse sample_playlist).
Proof.
  assert (H : In {| g_name := "Sport"; g_count := 1 |} (getGroups (parse sample_playlist)))
    by (vm_compute; right; left; reflexivity).
  split; [exact H|].
  exact (proj1 (getGroups_counts (parse sample_playlist)) _ H).
Defined.

Lemma parse_lines_group_nonempty :
  forall lines cur ch,
    (forall c, cur = Some c -> group c <> "") ->
    In ch (parse_lines lines cur) -> group (info ch) <> "".
Proof.
  intros lines. induction lines as [| raw lines IH]; intros cur ch Hcur H; simpl in H; [contradiction |].
  destruct (String.eqb (trim raw) ""); [exact (IH _ _ Hcur H) |].
  destruct (startsWith (trim raw) "#EXTINF:").
  { apply (IH (Some (parseExtInf (trim raw))) ch); [| exact H].
    intros c Hc. injection Hc as <-. apply parseExtInf_group_nonempty. }
  destruct (startsWith (trim raw) "http"); [| exact (IH _ _ Hcur H)].
  destruct cur as [c |]; [| exact (IH _ _ Hcur H)].
  destruct H as [H | H].
  - subst ch. simpl. exact (Hcur c eq_refl).
  - apply (IH None ch); [discriminate | exact H].
Qed.

Lemma group_key_nonempty : forall ch, group_key ch <> "".
Proof.
  intros ch. unfold group_key. destruct (String.eqb (group (info ch)) "") eqn:H; [discriminate |].
  intros H'. rewrite H' in H. discriminate.
Qed.

(** X8: for parsed channels, filtering by a group name [getGroups] lists (other than all) returns exactly as many channels as its count. *)
Theorem getGroups_filterByGroup_parse :
  forall content e, In e (getGroups (parse content)) -> g_name e <> "all" ->
    length (filterByGroup (parse content) (g_name e)) = g_count e.
Proof.
  intros content e He Hall.
  destruct (getGroups_counts (parse content)) as [Hcnt _].
  destruct (count_groups_spec (parse content)) as [_ [_ [Hkeys _]]].
  assert (Hne : g_name e <> "").
  { apply getGroups_in in He. apply (in_map fst) in He. simpl in He.
    apply Hkeys in He as [ch [_ Hk]]. rewrite <- Hk. apply group_key_nonempty. }
  rewrite (Hcnt e He). unfold filterByGroup, occurrences.
  destruct (String.eqb (g_name e) "") eqn:H1; [apply String.eqb_eq in H1; contradiction |].
  destruct (String.eqb (g_name e) "all") eqn:H2; [apply String.eqb_eq in H2; contradiction |].
  simpl. f_equal. apply filter_ext_in. intros ch Hch.
  assert (Hg : group (info ch) <> "").
  { apply (parse_lines_group_nonempty (split_nl content) None); [discriminate | exact Hch]. }
  unfold group_key. destruct (String.eqb (group (info ch)) "") eqn:H3; [| reflexivity].
  apply String.eqb_eq in H3. contradiction.
Qed.

Lemma getGroups_filterByGroup_parse_witness :
  In {| g_name := "News"; g_count := 2 |} (getGroups (parse sample_playlist)) /\
  length (filterByGroup (parse sample_playlist) "News") = 2.
Proof.
  assert (H : In {| g_name := "News"; g_count := 2 |} (getGroups (parse sample_playlist)))
    by (vm_compute; left; reflexivity).
  split; [exact H|].
  exact (getGroups_filterByGroup_parse sample_playlist _ H ltac:(discriminate)).
Defined.






Lemma bucket_push_perm :
  forall k e b, Permutation (concat (map snd (bucket_push k e b))) (concat (map snd b) ++ [e])%list.
Proof.
  intros k e b. induction b as [| [k' es] b IH]; simpl; [reflexivity |].
  destruct (k =? k')%Z; [| destruct (k <? k')%Z]; simpl.
  - rewrite <- !app_assoc. apply Permutation_app_head. apply Permutation_app_comm.
  - apply (Permutation_app_comm [e]).
  - rewrite <- app_assoc. apply Permutation_app_head. exact IH.
Qed.

Lemma bucket_fold_perm :
  forall rect els b,
    Permutation
      (concat (map snd (fold_left (fun b e =>
         let row := row_of rect e in
         if is_array_index row then bucket_push row e b else b) els b)))
      (concat (map snd b) ++ filter (fun x => is_array_index (row_of rect x)) els)%list.
Proof.
  intros rect els. induction els as [| e els IH]; intros b; simpl.
  - rewrite app_nil_r. reflexivity.
  - rewrite IH. destruct (is_array_index (row_of rect e)).
    + rewrite bucket_push_perm, <- app_assoc. reflexivity.
    + reflexivity.
Qed.

Lemma insert_by_left_perm :
  forall rect e l, Permutation (insert_by_left rect e l) (e :: l).
Proof.
  intros rect e l. induction l as [| h t IH]; simpl; [reflexivity |].
  destruct (left (rect e) <? left (rect h))%Z; [reflexivity |].
  rewrite IH. apply perm_swap.
Qed.

Lemma sort_by_left_perm : forall rect l, Permutation (sort_by_left rect l) l.
Proof.
  intros rect l. unfold sort_by_left.
  assert (H : forall l acc, Permutation (fold_left (fun acc e => insert_by_left rect e acc) l acc)
                              (l ++ acc)%list).
  { intros l0. induction l0 as [| e l0 IH]; intros acc; simpl; [reflexivity |].
    rewrite IH, insert_by_left_perm. symmetry. apply Permutation_middle. }
  rewrite H, app_nil_r. reflexivity.
Qed.

Lemma concat_filter_nonempty :
  forall (rows : list (list element)),
    concat (filter (fun row => negb (Nat.eqb (length row) 0)) rows) = concat rows.
Proof.
  intros rows. induction rows as [| row rows IH]; simpl; [reflexivity |].
  destruct row as [| x row]; simpl; [exact IH | rewrite IH; reflexivity].
Qed.

Lemma concat_map_perm :
  forall (f : list element -> list element) rows,
    (forall row, Permutation (f row) row) -> Permutation (concat (map f rows)) (concat rows).
Proof.
  intros f rows Hf. induction rows as [| row rows IH]; simpl; [reflexivity |].
  apply Permutation_app; [apply Hf | exact IH].
Qed.

(** X9: the grid holds exactly the focusables whose band floor(top / 80) is an array index, each as often as it is collected. *)
Theorem buildGrid_perm :
  forall rect els,
    Permutation (concat (buildGrid rect els))
                (filter (fun x => is_array_index (row_of rect x)) els).
Proof.
  intros rect els. unfold buildGrid.
  rewrite concat_map_perm by (intros; apply sort_by_left_perm).
  rewrite concat_filter_nonempty. unfold bucket_all.
  rewrite bucket_fold_perm. reflexivity.
Qed.

(** X10: from distinct focusables the grid builder makes no empty row and holds no node twice. *)
Theorem buildGrid_wf :
  forall rect els, NoDup els -> wf_grid (buildGrid rect els).
Proof.
  intros rect els Hnd. split.
  - unfold buildGrid. apply Forall_forall. intros row Hrow.
    apply in_map_iff in Hrow as [r0 [Hr0 Hin]]. subst row.
    apply filter_In in Hin as [_ Hlen].
    intros H. assert (Hl := Permutation_length (sort_by_left_perm rect r0)).
    rewrite H in Hl. destruct r0; simpl in Hl, Hlen; discriminate.
  - apply (Permutation_NoDup (Permutation_sym (buildGrid_perm rect els))).
    apply NoDup_filter. exact Hnd.
Qed.

Lemma buildGrid_wf_witness :
  NoDup [1; 2; 3; 4] /\ wf_grid (buildGrid (rect_of page) [1; 2; 3; 4]).
Proof.
  assert (H : NoDup [1; 2; 3; 4]) by (repeat constructor; simpl; lia).
  split; [exact H | exact (buildGrid_wf _ _ H)].
Defined.

Lemma bucket_push_keys :
  forall k e b p, In p (bucket_push k e b) -> fst p = k \/ In (fst p) (map fst b).
Proof.
  intros k e b p. induction b as [| [k' es] b IH]; simpl.
  - intros [H | []]. subst p. left. reflexivity.
  - destruct (k =? k')%Z eqn:Hk; [| destruct (k <? k')%Z]; simpl.
    + intros [H | H]; [subst p; right; left; reflexivity | right; right; apply in_map; exact H].
    + intros [H | [H | H]]; [subst p; left; reflexivity | subst p; right; left; reflexivity |].
      right. right. apply in_map. exact H.
    + intros [H | H]; [subst p; right; left; reflexivity |].
      destruct (IH H) as [H' | H']; [left; exact H' | right; right; exact H'].
Qed.

(** The bucket list: ascending keys, each bucket holding nodes of its band. *)
Lemma bucket_push_ok :
  forall rect k e b,
    row_of rect e = k ->
    StronglySorted (fun p q => (fst p < fst q)%Z) b ->
    Forall (fun p => forall x, In x (snd p) -> row_of rect x = fst p) b ->
    StronglySorted (fun p q => (fst p < fst q)%Z) (bucket_push k e b) /\
    Forall (fun p => forall x, In x (snd p) -> row_of rect x = fst p) (bucket_push k e b).
Proof.
  intros rect k e b He. induction b as [| [k' es] b IH]; intros Hs Hf; simpl.
  - split; repeat constructor. intros x [Hx | []]. subst x. exact He.
  - apply StronglySorted_inv in Hs as [Hs Hhd]. apply Forall_cons_iff in Hf as [Hk' Hf'].
    destruct (k =? k')%Z eqn:Hk; [| destruct (k <? k')%Z eqn:Hlt].
    + apply Z.eqb_eq in Hk. subst k'. split.
      * constructor; [exact Hs | exact Hhd].
      * constructor; [| exact Hf'].
        intros x Hx. simpl in Hx. apply in_app_or in Hx as [Hx | [Hx | []]].
        -- exact (Hk' x Hx).
        -- subst x. exact He.
    + apply Z.ltb_lt in Hlt. split.
      * constructor; [constructor; [exact Hs | exact Hhd] |].
        constructor; [exact Hlt |].
        rewrite Forall_forall in Hhd |- *. intros q Hq. simpl in *.
        specialize (Hhd q Hq). lia.
      * constructor; [intros x [Hx | []]; subst x; exact He | constructor; [exact Hk' | exact Hf']].
    + apply Z.eqb_neq in Hk. apply Z.ltb_ge in Hlt.
      destruct (IH Hs Hf') as [Hs' Hf''].
      split.
      * constructor; [exact Hs' |].
        rewrite Forall_forall in Hhd |- *. intros q Hq. simpl.
        destruct (bucket_push_keys _ _ _ _ Hq) as [Hq' | Hq'].
        -- lia.
        -- apply in_map_iff in Hq' as [q' [Hqq Hq'']]. rewrite <- Hqq. exact (Hhd q' Hq'').
      * constructor; [exact Hk' | exact Hf''].
Qed.

Lemma bucket_all_ok :
  forall rect els,
    StronglySorted (fun p q => (fst p < fst q)%Z) (bucket_all rect els) /\
    Forall (fun p => forall x, In x (snd p) -> row_of rect x = fst p) (bucket_all rect els).
Proof.
  intros rect els. unfold bucket_all.
  assert (H : forall els b,
    StronglySorted (fun p q => (fst p < fst q)%Z) b ->
    Forall (fun p => forall x, In x (snd p) -> row_of rect x = fst p) b ->
    let b' := fold_left (fun b e =>
         let row := row_of rect e in
         if is_array_index row then bucket_push row e b else b) els b in
    StronglySorted (fun p q => (fst p < fst q)%Z) b' /\
    Forall (fun p => forall x, In x (snd p) -> row_of rect x = fst p) b').
  { intros els0. induction els0 as [| e els0 IH]; intros b Hs Hf b'; subst b'; simpl.
    - split; assumption.
    - destruct (is_array_index (row_of rect e)).
      + destruct (bucket_push_ok rect (row_of rect e) e b eq_refl Hs Hf) as [Hs' Hf'].
        exact (IH _ Hs' Hf').
      + exact (IH _ Hs Hf). }
  apply H; constructor.
Qed.

Lemma SS_map :
  forall {A B} (R : A -> A -> Prop) (R' : B -> B -> Prop) (f : A -> B) l,
    (forall x y, In x l -> In y l -> R x y -> R' (f x) (f y)) ->
    StronglySorted R l -> StronglySorted R' (map f l).
Proof.
  intros A B R R' f l Himp Hs. induction Hs as [| a l Hs IH Hhd]; simpl; constructor.
  - apply IH. intros x y Hx Hy. apply Himp; right; assumption.
  - apply Forall_map. rewrite Forall_forall in Hhd |- *. intros y Hy.
    apply Himp; [left; reflexivity | right; exact Hy | exact (Hhd y Hy)].
Qed.

Lemma SS_filter :
  forall {A} (R : A -> A -> Prop) (p : A -> bool) l,
    StronglySorted R l -> StronglySorted R (filter p l).
Proof.
  intros A R p l Hs. induction Hs as [| a l Hs IH Hhd]; simpl; [constructor |].
  destruct (p a); [constructor; [exact IH |] | exact IH].
  rewrite Forall_forall in Hhd |- *. intros y Hy. apply filter_In in Hy as [Hy _]. exact (Hhd y Hy).
Qed.

Lemma insert_by_left_sorted :
  forall rect e l, Sorted (fun a b => (left (rect a) <= left (rect b))%Z) l ->
    Sorted (fun a b => (left (rect a) <= left (rect b))%Z) (insert_by_left rect e l).
Proof.
  intros rect e l. induction l as [| h t IH]; intros Hs; simpl.
  - repeat constructor.
  - destruct (left (rect e) <? left (rect h))%Z eqn:Hlt.
    + apply Z.ltb_lt in Hlt. constructor; [exact Hs | constructor; lia].
    + apply Z.ltb_ge in Hlt. apply Sorted_inv in Hs as [Ht Hh].
      constructor; [exact (IH Ht) |].
      destruct t as [| h' t']; simpl.
      * constructor. exact Hlt.
      * destruct (left (rect e) <? left (rect h'))%Z; constructor; [exact Hlt |].
        inversion Hh. assumption.
Qed.

Lemma sort_by_left_sorted :
  forall rect l, Sorted (fun a b => (left (rect a) <= left (rect b))%Z) (sort_by_left rect l).
Proof.
  intros rect l. unfold sort_by_left.
  assert (H : forall l acc, Sorted (fun a b => (left (rect a) <= left (rect b))%Z) acc ->
            Sorted (fun a b => (left (rect a) <= left (rect b))%Z)
              (fold_left (fun acc e => insert_by_left rect e acc) l acc)).
  { intros l0. induction l0 as [| e l0 IH]; intros acc Hs; simpl; [exact Hs |].
    apply IH. apply insert_by_left_sorted. exact Hs. }
  apply H. constructor.
Qed.

(** X11: each row of the grid is sorted by left and holds nodes of one band, and the rows go strictly down the bands. *)
Theorem buildGrid_rows :
  forall rect els,
    (forall row, In row (buildGrid rect els) ->
       Sorted (fun a b => (left (rect a) <= left (rect b))%Z) row /\
       (forall a b, In a row -> In b row -> row_of rect a = row_of rect b)) /\
    StronglySorted (fun r1 r2 => forall a b, In a r1 -> In b r2 ->
                      (row_of rect a < row_of rect b)%Z) (buildGrid rect els).
Proof.
  intros rect els. destruct (bucket_all_ok rect els) as [Hs Hf].
  rewrite Forall_forall in Hf. split.
  - intros row Hrow. unfold buildGrid in Hrow.
    apply in_map_iff in Hrow as [r0 [Hr0 Hin]]. subst row.
    apply filter_In in Hin as [Hin _]. apply in_map_iff in Hin as [p [Hp Hin]]. subst r0.
    split; [apply sort_by_left_sorted |].
    intros a b Ha Hb.
    apply (Permutation_in _ (sort_by_left_perm rect _)) in Ha, Hb.
    rewrite (Hf p Hin a Ha), (Hf p Hin b Hb). reflexivity.
  - unfold buildGrid. apply (SS_map (fun r1 r2 => forall a b, In a r1 -> In b r2 ->
                      (row_of rect a < row_of rect b)%Z)).
    + intros r1 r2 _ _ H a b Ha Hb.
      apply (Permutation_in _ (sort_by_left_perm rect _)) in Ha, Hb. exact (H a b Ha Hb).
    + apply SS_filter. apply (SS_map (fun p q => (fst p < fst q)%Z)); [| exact Hs].
      intros p q Hp Hq Hlt a b Ha Hb. rewrite (Hf p Hp a Ha), (Hf q Hq b Hb). exact Hlt.
Qed.

Lemma buildGrid_rows_witness :
  In [2; 3] (buildGrid (rect_of page) [1; 2; 3; 4]) /\
  row_of (rect_of page) 2 = row_of (rect_of page) 3.
Proof.
  assert (H : In [2; 3] (buildGrid (rect_of page) [1; 2; 3; 4]))
    by (vm_compute; right; left; reflexivity).
  split; [exact H|].
  apply (proj2 (proj1 (buildGrid_rows (rect_of page) [1; 2; 3; 4]) _ H)); simpl; auto.
Defined.

Lemma buildGrid_rows_nonempty :
  forall rect els row, In row (buildGrid rect els) -> row <> [].
Proof.
  intros rect els row Hrow. unfold buildGrid in Hrow.
  apply in_map_iff in Hrow as [r0 [Hr0 Hin]]. subst row.
  apply filter_In in Hin as [_ Hlen].
  intros H. assert (Hl := Permutation_length (sort_by_left_perm rect r0)).
  rewrite H in Hl. destruct r0; simpl in Hl, Hlen; discriminate.
Qed.

Lemma in_grid_iff :
  forall rect els x,
    In x (concat (buildGrid rect els)) <-> In x els /\ is_array_index (row_of rect x) = true.
Proof.
  intros rect els x. split.
  - intros H. apply (Permutation_in _ (buildGrid_perm rect els)) in H.
    apply filter_In in H. exact H.
  - intros H. apply (Permutation_in _ (Permutation_sym (buildGrid_perm rect els))).
    apply filter_In. exact H.
Qed.

(** X12: when some focusable has a valid band, [focusFirst] focuses a collected node that comes first by band, then by left. *)
Theorem focusFirst_top_left :
  forall E s y,
    section_present E = true ->
    In y (focusables E s) -> is_array_index (row_of (rect_of E) y) = true ->
    exists x, focusedElement (final (focusFirst E s)) = Some x /\
      In x (focusables E s) /\ is_array_index (row_of (rect_of E) x) = true /\
      forall z, In z (focusables E s) -> is_array_index (row_of (rect_of E) z) = true ->
        before_or_at (rect_of E) x z.
Proof.
  intros E s y Hsec Hy Hyi.
  unfold focusFirst, updateFocusableElements. rewrite Hsec.
  change (if isPlayerActive s then player_focusables E
          else (header_focusables E ++ section_focusables E)%list) with (focusables E s).
  cbn [negb grid with_grid].
  set (G := buildGrid (rect_of E) (focusables E s)).
  assert (HyG : In y (concat G)) by (apply in_grid_iff; split; assumption).
  destruct (buildGrid_rows (rect_of E) (focusables E s)) as [Hrows Hss]. fold G in Hrows, Hss.
  assert (Hne := buildGrid_rows_nonempty (rect_of E) (focusables E s)). fold G in Hne.
  destruct G as [| row rest] eqn:HG; [contradiction |].
  destruct row as [| x r']; [exfalso; exact (Hne [] (or_introl eq_refl) eq_refl) |].
  exists x. cbn [setFocus done final focusedElement with_focus].
  assert (HxG : In x (concat (buildGrid (rect_of E) (focusables E s)))).
  { fold G. rewrite HG. left. reflexivity. }
  apply in_grid_iff in HxG as [Hx Hxi].
  split; [reflexivity | split; [exact Hx | split; [exact Hxi |]]].
  intros z Hz Hzi.
  assert (HzG : In z (concat (buildGrid (rect_of E) (focusables E s)))) by (apply in_grid_iff; split; assumption).
  fold G in HzG. rewrite HG in HzG. simpl in HzG.
  destruct (Hrows (x :: r') (or_introl eq_refl)) as [Hsort Hband].
  apply StronglySorted_inv in Hss as [_ Hhd].
  destruct HzG as [Hxz | HzG]; [subst z; right; split; [reflexivity | lia] |].
  apply in_app_or in HzG as [Hz1 | Hz2].
  - right. split; [apply Hband; [left; reflexivity | right; exact Hz1] |].
    apply Sorted_StronglySorted in Hsort; [| intros a b c; lia].
    apply StronglySorted_inv in Hsort as [_ Hfx]. rewrite Forall_forall in Hfx.
    exact (Hfx z Hz1).
  - left. apply in_concat in Hz2 as [r2 [Hr2 Hz2]].
    rewrite Forall_forall in Hhd. exact (Hhd r2 Hr2 x z (or_introl eq_refl) Hz2).
Qed.

Lemma focusFirst_top_left_witness :
  exists x, focusedElement (final (focusFirst page idle)) = Some x /\
    In x (focusables page idle) /\ is_array_index (row_of (rect_of page) x) = true /\
    forall z, In z (focusables page idle) -> is_array_index (row_of (rect_of page) z) = true ->
      before_or_at (rect_of page) x z.
Proof.
  apply (focusFirst_top_left page idle 3).
  - reflexivity.
  - vm_compute; tauto.
  - vm_compute; reflexivity.
Defined.

Lemma idx_range : forall {A} (l : list A) i x, idx l i = Some x -> (0 <= i < len l)%Z.
Proof.
  intros A l i x H. unfold idx in H. destruct (i <? 0)%Z eqn:Hi; [discriminate |].
  apply Z.ltb_ge in Hi. assert (Hn : nth_error l (Z.to_nat i) <> None) by congruence.
  apply nth_error_Some in Hn. unfold len. lia.
Qed.

Lemma idx_exists : forall {A} (l : list A) i, (0 <= i < len l)%Z -> exists x, idx l i = Some x.
Proof.
  intros A l i Hi. unfold idx. destruct (i <? 0)%Z eqn:H0; [apply Z.ltb_lt in H0; lia |].
  destruct (nth_error l (Z.to_nat i)) as [x |] eqn:Hn; [exists x; reflexivity |].
  apply nth_error_None in Hn. unfold len in Hi. lia.
Qed.

Lemma idx_row_nonempty :
  forall (g : list (list element)) i row,
    Forall (fun row => row <> []) g -> idx g i = Some row -> (0 < len row)%Z.
Proof.
  intros g i row Hne H. apply idx_some in H as [_ H]. apply nth_error_In in H.
  rewrite Forall_forall in Hne. specialize (Hne row H).
  destruct row; [congruence | unfold len; simpl; lia].
Qed.

Lemma finish_cursor :
  forall s1 r' c' x',
    raised (finish (focusedElement s1) (with_cursor s1 r' c') (Some x')) = false /\
    grid (final (finish (focusedElement s1) (with_cursor s1 r' c') (Some x'))) = grid s1 /\
    currentRow (final (finish (focusedElement s1) (with_cursor s1 r' c') (Some x'))) = r' /\
    currentCol (final (finish (focusedElement s1) (with_cursor s1 r' c') (Some x'))) = c' /\
    focusedElement (final (finish (focusedElement s1) (with_cursor s1 r' c') (Some x'))) = Some x'.
Proof.
  intros s1 r' c' x'. unfold finish.
  destruct (focusedElement s1) as [e |] eqn:Hf.
  - destruct (Nat.eqb e x') eqn:Hex.
    + apply Nat.eqb_eq in Hex. subst x'. simpl. repeat split. exact Hf.
    + simpl. repeat split.
  - simpl. repeat split.
Qed.

(** Reduces a [navigate] goal to [move] from the synchronised cursor. *)
Lemma navigate_from_position :
  forall E s d r c row0,
    position s = (r, c) -> idx (grid s) r = Some row0 ->
    exists s1, navigate E s d = move (focusedElement s1) s1 d /\
      grid s1 = grid s /\ currentRow s1 = r /\ currentCol s1 = c /\
      focusedElement s1 = focusedElement s.
Proof.
  intros E s d r c row0 Hpos Hrow0.
  assert (Hg : grid s <> []).
  { intros H. rewrite H in Hrow0. apply idx_range in Hrow0. unfold len in Hrow0. simpl in Hrow0. lia. }
  destruct (sync_cursor_fields s) as [Hsg [Hsf Hsp]].
  rewrite Hpos in Hsp. injection Hsp as Hsr Hsc.
  exists (sync_cursor s). rewrite navigate_nonempty by exact Hg. rewrite Hsf.
  repeat split; assumption.
Qed.

(** X13: from a cursor on a node of a grid with no empty row, [navigate] never throws, keeps the grid, and either changes nothing or moves the cursor to another node and focuses it. *)
Theorem navigate_keeps_cursor_valid :
  forall E s d x,
    Forall (fun row => row <> []) (grid s) ->
    at_cursor (grid s) (fst (position s)) (snd (position s)) = Some x ->
    raised (navigate E s d) = false /\
    grid (final (navigate E s d)) = grid s /\
    (((currentRow (final (navigate E s d)), currentCol (final (navigate E s d))) = position s /\
      focusedElement (final (navigate E s d)) = focusedElement s) \/
     ((currentRow (final (navigate E s d)), currentCol (final (navigate E s d))) <> position s /\
      exists x', at_cursor (grid s) (currentRow (final (navigate E s d)))
                   (currentCol (final (navigate E s d))) = Some x' /\
                 focusedElement (final (navigate E s d)) = Some x')).
Proof.
  intros E s d x Hne Hat.
  destruct (position s) as [r c] eqn:Hpos. simpl in Hat.
  unfold at_cursor in Hat. destruct (idx (grid s) r) as [row0 |] eqn:Hrow0; [| discriminate].
  assert (Hr := idx_range _ _ _ Hrow0). assert (Hc := idx_range _ _ _ Hat).
  destruct (navigate_from_position E s d r c row0 Hpos Hrow0) as [s1 [Hnav [Hg1 [Hr1 [Hc1 Hf1]]]]].
  rewrite Hnav. rewrite <- Hg1 in Hrow0, Hne, Hr |- *. rewrite <- Hf1.
  clear Hnav Hpos.
  (* the nodes of the neighbouring positions *)
  assert (Hto : forall r' c' row' x',
    idx (grid s1) r' = Some row' -> idx row' c' = Some x' -> (r', c') <> (r, c) ->
    let res := finish (focusedElement s1) (with_cursor s1 r' c') (idx row' c') in
    raised res = false /\ grid (final res) = grid s1 /\
    (((currentRow (final res), currentCol (final res)) = (r, c) /\
      focusedElement (final res) = focusedElement s1) \/
     ((currentRow (final res), currentCol (final res)) <> (r, c) /\
      exists x'', at_cursor (grid s1) (currentRow (final res)) (currentCol (final res)) = Some x'' /\
                  focusedElement (final res) = Some x''))).
  { intros r' c' row' x' Hrow' Hx' Hneq res. subst res. rewrite Hx'.
    destruct (finish_cursor s1 r' c' x') as [Ha [Hb [Hc' [Hd He]]]].
    rewrite Ha, Hb, Hc', Hd, He. split; [reflexivity | split; [reflexivity |]].
    right. split; [exact Hneq |]. exists x'. unfold at_cursor. rewrite Hrow'. split; [exact Hx' | reflexivity]. }
  assert (Hstay : raised (done s1 []) = false /\ grid (final (done s1 [])) = grid s1 /\
    (((currentRow (final (done s1 [])), currentCol (final (done s1 []))) = (r, c) /\
      focusedElement (final (done s1 [])) = focusedElement s1) \/
     ((currentRow (final (done s1 [])), currentCol (final (done s1 []))) <> (r, c) /\
      exists x'', at_cursor (grid s1) (currentRow (final (done s1 [])))
                    (currentCol (final (done s1 []))) = Some x'' /\
                  focusedElement (final (done s1 [])) = Some x''))).
  { simpl. rewrite Hr1, Hc1. split; [reflexivity | split; [reflexivity |]]. left. split; reflexivity. }
  unfold move. rewrite Hr1, Hc1. destruct d.
  - (* Up *)
    destruct (0 <? r)%Z eqn:H0; [| exact Hstay]. apply Z.ltb_lt in H0.
    destruct (idx_exists (grid s1) (r - 1) ltac:(lia)) as [row' Hrow'].
    rewrite Hrow'. assert (Hl := idx_row_nonempty _ _ _ Hne Hrow').
    destruct (idx_exists row' (Z.min c (len row' - 1)) ltac:(lia)) as [x' Hx'].
    apply (Hto _ _ _ _ Hrow' Hx'). intros H. injection H. lia.
  - (* Down *)
    destruct (r <? len (grid s1) - 1)%Z eqn:H0; [| exact Hstay]. apply Z.ltb_lt in H0.
    destruct (idx_exists (grid s1) (r + 1) ltac:(lia)) as [row' Hrow'].
    rewrite Hrow'. assert (Hl := idx_row_nonempty _ _ _ Hne Hrow').
    destruct (idx_exists row' (Z.min c (len row' - 1)) ltac:(lia)) as [x' Hx'].
    apply (Hto _ _ _ _ Hrow' Hx'). intros H. injection H. lia.
  - (* Left *)
    destruct (0 <? c)%Z eqn:H0.
    + apply Z.ltb_lt in H0. rewrite Hrow0.
      destruct (idx_exists row0 (c - 1) ltac:(lia)) as [x' Hx'].
      apply (Hto _ _ _ _ Hrow0 Hx'). intros H. injection H. lia.
    + destruct (0 <? r)%Z eqn:H1; [| exact Hstay]. apply Z.ltb_lt in H1.
      destruct (idx_exists (grid s1) (r - 1) ltac:(lia)) as [row' Hrow'].
      rewrite Hrow'. assert (Hl := idx_row_nonempty _ _ _ Hne Hrow').
      destruct (idx_exists row' (len row' - 1) ltac:(lia)) as [x' Hx'].
      apply (Hto _ _ _ _ Hrow' Hx'). intros H. injection H. lia.
  - (* Right *)
    rewrite Hrow0.
    destruct (c <? len row0 - 1)%Z eqn:H0.
    + apply Z.ltb_lt in H0.
      destruct (idx_exists row0 (c + 1) ltac:(lia)) as [x' Hx'].
      apply (Hto _ _ _ _ Hrow0 Hx'). intros H. injection H. lia.
    + destruct (r <? len (grid s1) - 1)%Z eqn:H1; [| exact Hstay]. apply Z.ltb_lt in H1.
      destruct (idx_exists (grid s1) (r + 1) ltac:(lia)) as [row' Hrow'].
      rewrite Hrow'. assert (Hl := idx_row_nonempty _ _ _ Hne Hrow').
      destruct (idx_exists row' 0 ltac:(lia)) as [x' Hx'].
      apply (Hto _ _ _ _ Hrow' Hx'). intros H. injection H. lia.
Qed.

Lemma navigate_keeps_cursor_valid_witness :
  raised (navigate page on_second_row Up) = false /\
  grid (final (navigate page on_second_row Up)) = grid on_second_row.
Proof.
  destruct (navigate_keeps_cursor_valid page on_second_row Up 3) as [H1 [H2 _]].
  - repeat constructor; discriminate.
  - vm_compute; reflexivity.
  - split; assumption.
Defined.

(** X14: moving left from column 0 of a row below the first goes to the last column of the previous row; from (0, 0) nothing moves. *)
Theorem navigate_left_first_column :
  forall E s r row,
    Forall (fun row => row <> []) (grid s) ->
    idx (grid s) r = Some row ->
    position s = (r, 0%Z) ->
    raised (navigate E s Left) = false /\
    ((0 < r)%Z ->
       exists prev x, idx (grid s) (r - 1) = Some prev /\ idx prev (len prev - 1) = Some x /\
         focusedElement (final (navigate E s Left)) = Some x /\
         currentRow (final (navigate E s Left)) = (r - 1)%Z /\
         currentCol (final (navigate E s Left)) = (len prev - 1)%Z) /\
    (r = 0%Z ->
       focusedElement (final (navigate E s Left)) = focusedElement s /\
       currentRow (final (navigate E s Left)) = 0%Z /\
       currentCol (final (navigate E s Left)) = 0%Z).
Proof.
  intros E s r row Hne Hrow Hpos.
  assert (Hr := idx_range _ _ _ Hrow).
  destruct (navigate_from_position E s Left r 0 row Hpos Hrow) as [s1 [Hnav [Hg1 [Hr1 [Hc1 Hf1]]]]].
  rewrite Hnav. unfold move. rewrite Hr1, Hc1, Hg1. cbn [Z.ltb Z.compare].
  destruct (0 <? r)%Z eqn:H0.
  - apply Z.ltb_lt in H0.
    destruct (idx_exists (grid s) (r - 1) ltac:(lia)) as [prev Hprev].
    rewrite Hprev. assert (Hl := idx_row_nonempty _ _ _ Hne Hprev).
    destruct (idx_exists prev (len prev - 1) ltac:(lia)) as [x Hx]. rewrite Hx.
    destruct (finish_cursor s1 (r - 1) (len prev - 1) x) as [Ha [_ [Hc' [Hd He]]]].
    split; [exact Ha | split; [| intros; lia]].
    intros _. exists prev, x. repeat split; assumption.
  - apply Z.ltb_ge in H0. cbn [done final raised focusedElement currentRow currentCol].
    split; [reflexivity | split; [intros; lia |]].
    intros Hr0. rewrite Hf1, Hr1, Hc1, Hr0. repeat split.
Qed.

Lemma navigate_left_first_column_witness :
  focusedElement (final (navigate page on_second_row Left)) = Some 2.
Proof.
  destruct (navigate_left_first_column page on_second_row 1 [3]) as [_ [Hlt _]].
  - repeat constructor; discriminate.
  - vm_compute; reflexivity.
  - vm_compute; reflexivity.
  - destruct (Hlt ltac:(lia)) as [prev [x [Hp [Hx [Hf _]]]]].
    vm_compute in Hp; injection Hp as <-. vm_compute in Hx; injection Hx as <-.
    exact Hf.
Defined.

(** X15: moving up or down keeps the column, clamped to the last column of the target row, and focuses the node there. *)
Theorem navigate_vertical_clamps_column :
  forall E s r c x,
    Forall (fun row => row <> []) (grid s) ->
    position s = (r, c) ->
    at_cursor (grid s) r c = Some x ->
    ((0 < r)%Z -> forall above, idx (grid s) (r - 1) = Some above ->
       raised (navigate E s Up) = false /\
       currentRow (final (navigate E s Up)) = (r - 1)%Z /\
       currentCol (final (navigate E s Up)) = Z.min c (len above - 1) /\
       focusedElement (final (navigate E s Up)) = idx above (Z.min c (len above - 1))) /\
    ((r < len (grid s) - 1)%Z -> forall below, idx (grid s) (r + 1) = Some below ->
       raised (navigate E s Down) = false /\
       currentRow (final (navigate E s Down)) = (r + 1)%Z /\
       currentCol (final (navigate E s Down)) = Z.min c (len below - 1) /\
       focusedElement (final (navigate E s Down)) = idx below (Z.min c (len below - 1))).
Proof.
  intros E s r c x Hne Hpos Hat.
  unfold at_cursor in Hat. destruct (idx (grid s) r) as [row0 |] eqn:Hrow0; [| discriminate].
  assert (Hc := idx_range _ _ _ Hat).
  split.
  - intros H0 above Habove.
    destruct (navigate_from_position E s Up r c row0 Hpos Hrow0) as [s1 [Hnav [Hg1 [Hr1 [Hc1 Hf1]]]]].
    rewrite Hnav. unfold move. rewrite Hr1, Hc1, Hg1.
    apply Z.ltb_lt in H0. rewrite H0, Habove.
    assert (Hl := idx_row_nonempty _ _ _ Hne Habove).
    destruct (idx_exists above (Z.min c (len above - 1)) ltac:(lia)) as [y Hy]. rewrite Hy.
    destruct (finish_cursor s1 (r - 1) (Z.min c (len above - 1)) y) as [Ha [_ [Hc' [Hd He]]]].
    repeat split; assumption.
  - intros H0 below Hbelow.
    destruct (navigate_from_position E s Down r c row0 Hpos Hrow0) as [s1 [Hnav [Hg1 [Hr1 [Hc1 Hf1]]]]].
    rewrite Hnav. unfold move. rewrite Hr1, Hc1, Hg1.
    apply Z.ltb_lt in H0. rewrite H0, Hbelow.
    assert (Hl := idx_row_nonempty _ _ _ Hne Hbelow).
    destruct (idx_exists below (Z.min c (len below - 1)) ltac:(lia)) as [y Hy]. rewrite Hy.
    destruct (finish_cursor s1 (r + 1) (Z.min c (len below - 1)) y) as [Ha [_ [Hc' [Hd He]]]].
    repeat split; assumption.
Qed.

Lemma navigate_vertical_clamps_column_witness :
  currentCol (final (navigate page on_second_row Up)) = Z.min 0 (len [1; 2] - 1).
Proof.
  destruct (navigate_vertical_clamps_column page on_second_row 1 0 3) as [Hup _].
  - repeat constructor; discriminate.
  - vm_compute; reflexivity.
  - vm_compute; reflexivity.
  - exact (proj1 (proj2 (proj2 (Hup ltac:(lia) [1; 2] eq_refl)))).
Defined.

(** X16: on the home section outside player mode, [back] removes the newest history entry and focuses its node when it is still in the document. *)
Theorem back_home_pops_history :
  forall E s h entry,
    isPlayerActive s = false -> currentSection s = "home" ->
    focusHistory s = (h ++ [entry])%list ->
    raised (back E s) = false /\
    focusHistory (final (back E s)) = h /\
    focusedElement (final (back E s)) =
      (if attached E (h_element entry) then Some (h_element entry) else focusedElement s).
Proof.
  intros E s h entry Hp Hs Hh. unfold back. rewrite Hp, Hs. cbn [negb String.eqb Ascii.eqb Bool.eqb].
  rewrite Hh. destruct (h ++ [entry])%list as [| a l] eqn:Hhl.
  { destruct h; discriminate. }
  rewrite <- Hhl, last_last, removelast_last.
  destruct (attached E (h_element entry)); cbn [setFocus done final raised focusHistory focusedElement with_focus with_history];
    repeat split.
Qed.

Lemma back_home_pops_history_witness :
  focusHistory (final (back page on_second_row)) = [] /\
  focusedElement (final (back page on_second_row)) = Some 1.
Proof.
  destruct (back_home_pops_history page on_second_row [] {| h_element := 1; h_section := "home" |})
    as [_ [Hh Hf]]; try reflexivity.
  split; [exact Hh | exact Hf].
Defined.

(** X17: on the home section, [select] then [back] returns focus to the selected node and restores the history, except that a full history of 20 loses its oldest entry. *)
Theorem select_then_back :
  forall E s e,
    isPlayerActive s = false -> currentSection s = "home" ->
    focusedElement s = Some e -> attached E e = true ->
    raised (back E (final (select s))) = false /\
    focusedElement (final (back E (final (select s)))) = Some e /\
    (length (focusHistory s) < 20 ->
       focusHistory (final (back E (final (select s)))) = focusHistory s) /\
    (length (focusHistory s) = 20 ->
       focusHistory (final (back E (final (select s)))) = tl (focusHistory s)).
Proof.
  intros E s e Hp Hs Hf Ha.
  set (entry := {| h_element := e; h_section := currentSection s |}).
  assert (Hsel : forall h, focusHistory s = h ->
    focusHistory (final (select s)) =
      (if 20 <? length (h ++ [entry]) then tl (h ++ [entry]) else h ++ [entry])%list /\
    isPlayerActive (final (select s)) = false /\ currentSection (final (select s)) = "home" /\
    focusedElement (final (select s)) = Some e).
  { intros h Hh. unfold select. rewrite Hf. cbn [done final focusHistory with_history
      isPlayerActive currentSection focusedElement]. rewrite Hh. repeat split; assumption. }
  destruct (Hsel (focusHistory s) eq_refl) as [Hh' [Hp' [Hs' Hf']]].
  destruct (20 <? length (focusHistory s ++ [entry])%list) eqn:Hlen.
  - apply Nat.ltb_lt in Hlen. rewrite length_app in Hlen. simpl in Hlen.
    destruct (focusHistory s) as [| a h] eqn:Hfh; [simpl in Hlen; lia |].
    simpl in Hh'.
    destruct (back_home_pops_history E (final (select s)) h entry Hp' Hs' Hh') as [Hr [Hb Hfb]].
    change (h_element entry) with e in Hfb. rewrite Hfb, Ha, Hb. split; [exact Hr | split; [reflexivity |]].
    split; [intros H; simpl in H, Hlen; lia | intros _; reflexivity].
  - apply Nat.ltb_ge in Hlen. rewrite length_app in Hlen. simpl in Hlen.
    destruct (back_home_pops_history E (final (select s)) (focusHistory s) entry Hp' Hs' Hh')
      as [Hr [Hb Hfb]].
    change (h_element entry) with e in Hfb. rewrite Hfb, Ha, Hb. split; [exact Hr | split; [reflexivity |]].
    split; [intros _; reflexivity | intros H; lia].
Qed.

Lemma select_then_back_witness :
  focusedElement (final (back page (final (select on_second_row)))) = Some 3 /\
  focusHistory (final (back page (final (select on_second_row)))) = focusHistory on_second_row.
Proof.
  destruct (select_then_back page on_second_row 3) as [_ [Hf [Hlt _]]]; try reflexivity.
  split; [exact Hf | apply Hlt; simpl; lia].
Defined.

Section StorageProps.
Import Storage.

Lemma existsb_has_url_false :
  forall u l, existsb (has_url u) l = false -> ~ In u (map fav_url l).
Proof.
  intros u l H Hin. apply in_map_iff in Hin as [f [Hf Hin]].
  assert (Hx : existsb (has_url u) l = true).
  { apply existsb_exists. exists f. split; [exact Hin | unfold has_url; rewrite Hf; apply String.eqb_refl]. }
  congruence.
Qed.

(** X18: [addFavorite] adds a channel at the front only when no favorite has its URL, returning whether it added, and keeps favorite URLs distinct. *)
Theorem addFavorite_spec :
  forall fits now ch st,
    (isFavorite (url ch) st = true -> addFavorite fits now ch st = (Value false, st)) /\
    (isFavorite (url ch) st = false -> fits = true ->
       fst (addFavorite fits now ch st) = Value true /\
       getFavorites (snd (addFavorite fits now ch st)) =
         {| fav_name := name (info ch); fav_url := url ch; fav_logo := logo (info ch);
            fav_group := group (info ch); addedAt := now |} :: getFavorites st /\
       isFavorite (url ch) (snd (addFavorite fits now ch st)) = true) /\
    (NoDup (map fav_url (getFavorites st)) ->
       NoDup (map fav_url (getFavorites (snd (addFavorite fits now ch st))))).
Proof.
  intros fits now ch st. unfold isFavorite, addFavorite.
  destruct (existsb (has_url (url ch)) (getFavorites st)) eqn:Hex.
  - split; [reflexivity | split; [discriminate | intros H; exact H]].
  - split; [discriminate |]. split.
    + intros _ Hfits. subst fits. cbn [fst snd getFavorites favorites_item set_favorites].
      split; [reflexivity | split; [reflexivity |]].
      simpl. unfold has_url at 1. simpl. rewrite String.eqb_refl. reflexivity.
    + intros Hnd. destruct fits; cbn [snd getFavorites favorites_item set_favorites]; [| exact Hnd].
      simpl. constructor; [exact (existsb_has_url_false _ _ Hex) | exact Hnd].
Qed.

Lemma addFavorite_spec_witness :
  fst (addFavorite true 0 sample_channel empty_store) = Value true /\
  NoDup (map fav_url (getFavorites (snd (addFavorite true 0 sample_channel empty_store)))).
Proof.
  destruct (addFavorite_spec true 0 sample_channel empty_store) as [_ [Hadd Hnd]].
  split.
  - exact (proj1 (Hadd ltac:(vm_compute; reflexivity) eq_refl)).
  - apply Hnd; vm_compute; constructor.
Defined.

(** X19: after [removeFavorite(url)] that URL is no favorite and every other URL keeps its favorite status. *)
Theorem removeFavorite_url :
  forall u st,
    isFavorite u (snd (removeFavorite true (ArgString u) st)) = false /\
    (forall u', u' <> u ->
       isFavorite u' (snd (removeFavorite true (ArgString u) st)) = isFavorite u' st).
Proof.
  intros u st. unfold isFavorite, removeFavorite.
  cbn [snd getFavorites favorites_item set_favorites strict_eq_string].
  split.
  - apply not_true_iff_false. intros H. apply existsb_exists in H as [f [Hin Hf]].
    apply filter_In in Hin as [_ Hkeep]. unfold has_url in Hf. rewrite Hf in Hkeep. discriminate.
  - intros u' Hne. induction (getFavorites st) as [| f l IH]; [reflexivity |].
    simpl. destruct (String.eqb (fav_url f) u) eqn:Hu; simpl.
    + rewrite IH. unfold has_url. apply String.eqb_eq in Hu. rewrite Hu.
      destruct (String.eqb u u') eqn:Huu; [apply String.eqb_eq in Huu; congruence | reflexivity].
    + rewrite IH. reflexivity.
Qed.

Lemma removeFavorite_url_witness :
  isFavorite "http://two"
    (snd (removeFavorite true (ArgString "http://one")
            (snd (addFavorite true 0 sample_channel empty_store)))) =
  isFavorite "http://two" (snd (addFavorite true 0 sample_channel empty_store)).
Proof.
  exact (proj2 (removeFavorite_url "http://one" _) "http://two" ltac:(discriminate)).
Defined.

(** X20: [App.toggleFavorite] makes a non-favorite a favorite, but on a favorite it passes the channel object to [removeFavorite], which removes nothing, so the favorites and the favorites section stay the same. *)
Theorem App_toggleFavorite_only_adds :
  forall fits now ch st channels,
    (isFavorite (url ch) st = false ->
       isFavorite (url ch) (snd (App.toggleFavorite true now ch st)) = true) /\
    (isFavorite (url ch) st = true ->
       getFavorites (snd (App.toggleFavorite fits now ch st)) = getFavorites st /\
       App.channelsToShow "favorites" channels (snd (App.toggleFavorite fits now ch st)) =
         App.channelsToShow "favorites" channels st).
Proof.
  intros fits now ch st channels. split.
  { intros Hnot. unfold App.toggleFavorite. unfold isFavorite in Hnot |- *. rewrite Hnot.
    unfold addFavorite. rewrite Hnot. simpl. unfold has_url at 1. simpl.
    rewrite String.eqb_refl. reflexivity. }
  intros Hfav.
  assert (H : getFavorites (snd (App.toggleFavorite fits now ch st)) = getFavorites st).
  { unfold App.toggleFavorite. unfold isFavorite in Hfav. rewrite Hfav.
    unfold removeFavorite. cbn [strict_eq_string negb].
    rewrite filter_true. destruct fits; reflexivity. }
  split; [exact H |]. unfold App.channelsToShow. simpl. rewrite H. reflexivity.
Qed.

Lemma App_toggleFavorite_only_adds_witness :
  isFavorite (url sample_channel) (snd (App.toggleFavorite true 0 sample_channel empty_store)) = true /\
  getFavorites (snd (App.toggleFavorite true 1 sample_channel
                       (snd (App.toggleFavorite true 0 sample_channel empty_store)))) =
  getFavorites (snd (App.toggleFavorite true 0 sample_channel empty_store)).
Proof.
  split.
  - apply (proj1 (App_toggleFavorite_only_adds true 0 sample_channel empty_store [])).
    vm_compute; reflexivity.
  - apply (proj2 (App_toggleFavorite_only_adds true 1 sample_channel _ [])).
    vm_compute; reflexivity.
Defined.


Lemma firstn_S_cons : forall {A} n (a : A) l, firstn (S n) (a :: l) = a :: firstn n l.
Proof. reflexivity. Qed.

(** X21: [addRecent] puts the channel first, drops its older entries and keeps at most 20 entries, so its URL appears exactly once. *)
Theorem addRecent_spec :
  forall now ch st,
    getRecent (snd (addRecent true now ch st)) =
      {| rec_name := name (info ch); rec_url := url ch; rec_logo := logo (info ch);
         rec_group := group (info ch); watchedAt := now |} ::
      firstn 19 (filter (fun r => negb (String.eqb (rec_url r) (url ch))) (getRecent st)) /\
    length (getRecent (snd (addRecent true now ch st))) <= MAX_RECENT /\
    length (filter (fun r => String.eqb (rec_url r) (url ch))
              (getRecent (snd (addRecent true now ch st)))) = 1.
Proof.
  intros now ch st.
  assert (Hform : getRecent (snd (addRecent true now ch st)) =
      {| rec_name := name (info ch); rec_url := url ch; rec_logo := logo (info ch);
         rec_group := group (info ch); watchedAt := now |} ::
      firstn 19 (filter (fun r => negb (String.eqb (rec_url r) (url ch))) (getRecent st))).
  { unfold addRecent. cbn [snd getRecent recent_item set_recent].
    set (l := filter (fun r => negb (String.eqb (rec_url r) (url ch))) (getRecent st)).
    destruct (MAX_RECENT <? length (_ :: l)) eqn:Hlen.
    - reflexivity.
    - apply Nat.ltb_ge in Hlen. simpl in Hlen. unfold MAX_RECENT in Hlen.
      rewrite firstn_all2 by lia. reflexivity. }
  rewrite Hform. split; [reflexivity | split].
  - cbn [length]. rewrite length_firstn. unfold MAX_RECENT. lia.
  - set (L := filter (fun r => negb (String.eqb (rec_url r) (url ch))) (getRecent st)).
    assert (Hall : forall x, In x (firstn 19 L) -> String.eqb (rec_url x) (url ch) = false).
    { intros x Hx. assert (HxL : In x L).
      { rewrite <- (firstn_skipn 19 L). apply in_or_app. left. exact Hx. }
      apply filter_In in HxL as [_ Hk]. apply negb_true_iff in Hk. exact Hk. }
    cbn [filter rec_url]. rewrite String.eqb_refl. cbn [length]. f_equal.
    apply length_zero_iff_nil.
    induction (firstn 19 L) as [| x l IH]; [reflexivity |].
    simpl. rewrite (Hall x (or_introl eq_refl)). apply IH.
    intros y Hy. apply Hall. right. exact Hy.
Qed.

(** X22: cached channels are read back for one hour (until the expiry time inclusive); after that the read gives null and removes the entry; a write that does not fit leaves nothing cached. *)
Theorem cacheChannels_expiry :
  forall now now' chs st,
    ((now' <= now + 3600000)%Z ->
       getCachedChannels now' (cacheChannels true now chs 1 st) =
         (Some chs, cacheChannels true now chs 1 st)) /\
    ((now + 3600000 < now')%Z ->
       fst (getCachedChannels now' (cacheChannels true now chs 1 st)) = None /\
       cache_item (snd (getCachedChannels now' (cacheChannels true now chs 1 st))) = Absent) /\
    fst (getCachedChannels now' (cacheChannels false now chs 1 st)) = None.
Proof.
  intros now now' chs st. unfold getCachedChannels, cacheChannels.
  cbn [cache_item set_cache expiry cached]. split; [| split].
  - intros H. replace (now + 1 * 60 * 60 * 1000 <? now')%Z with false by (symmetry; apply Z.ltb_ge; lia).
    reflexivity.
  - intros H. replace (now + 1 * 60 * 60 * 1000 <? now')%Z with true by (symmetry; apply Z.ltb_lt; lia).
    split; reflexivity.
  - reflexivity.
Qed.

Lemma cacheChannels_expiry_witness :
  getCachedChannels 3600000 (cacheChannels true 0 [sample_channel] 1 empty_store) =
    (Some [sample_channel], cacheChannels true 0 [sample_channel] 1 empty_store) /\
  fst (getCachedChannels 3600001 (cacheChannels true 0 [sample_channel] 1 empty_store)) = None.
Proof.
  split.
  - apply (proj1 (cacheChannels_expiry 0 3600000 [sample_channel] empty_store)); lia.
  - apply (proj1 (proj2 (cacheChannels_expiry 0 3600001 [sample_channel] empty_store))); lia.
Defined.

End StorageProps.

Lemma cache_writes_app :
  forall a b, App.cache_writes (a ++ b) = (App.cache_writes a ++ App.cache_writes b)%list.
Proof. intros a b. unfold App.cache_writes. apply flat_map_app. Qed.

Lemma loop_attempt_writes :
  forall E t,
    (forall chs, snd (loop_attempt E t) = AOk chs ->
       chs <> [] /\ App.cache_writes (fst (loop_attempt E t)) = [chs]) /\
    (forall a, snd (loop_attempt E t) = a -> (forall chs, a <> AOk chs) ->
       App.cache_writes (fst (loop_attempt E t)) = []).
Proof.
  intros E t. unfold loop_attempt.
  destruct (net E t) as [e | r]; [split; [discriminate | reflexivity] |].
  destruct (negb (ok r)); [split; [discriminate | reflexivity] |].
  destruct (text r) as [content | e]; [| split; [discriminate | reflexivity]].
  destruct (0 <? length (parse content)) eqn:Hlen.
  - split.
    + intros chs H. simpl in H. injection H as <-. split; [| reflexivity].
      apply Nat.ltb_lt in Hlen. intros H. rewrite H in Hlen. simpl in Hlen. lia.
    + intros a Ha Hnot. simpl in Ha. subst a. exfalso. exact (Hnot _ eq_refl).
  - split; [discriminate | reflexivity].
Qed.

Lemma proxy_loop_writes :
  forall E url ps le,
    (forall chs, snd (proxy_loop E url ps le) = inl chs ->
       chs <> [] /\ App.cache_writes (fst (proxy_loop E url ps le)) = [chs]) /\
    (forall e, snd (proxy_loop E url ps le) = inr e ->
       App.cache_writes (fst (proxy_loop E url ps le)) = []).
Proof.
  intros E url ps. induction ps as [| p ps IH]; intros le; simpl.
  - split; [discriminate | reflexivity].
  - destruct (loop_attempt_writes E (proxy_target url p)) as [Hok Hno].
    destruct (loop_attempt E (proxy_target url p)) as [ev a] eqn:Hla. simpl in Hok, Hno.
    destruct a as [chs | e | ].
    + split; [| discriminate]. intros chs' H. simpl in H. injection H as <-. exact (Hok _ eq_refl).
    + specialize (Hno _ eq_refl ltac:(discriminate)).
      destruct (IH (Some e)) as [Hi1 Hi2].
      destruct (proxy_loop E url ps (Some e)) as [ev' r] eqn:Hpl. simpl in Hi1, Hi2 |- *.
      rewrite cache_writes_app, Hno. simpl. split; assumption.
    + specialize (Hno _ eq_refl ltac:(discriminate)).
      destruct (IH le) as [Hi1 Hi2].
      destruct (proxy_loop E url ps le) as [ev' r] eqn:Hpl. simpl in Hi1, Hi2 |- *.
      rewrite cache_writes_app, Hno. simpl. split; assumption.
Qed.

Lemma php_attempt_writes :
  forall E url,
    (forall chs, snd (php_attempt E url) = Some chs ->
       chs <> [] /\ App.cache_writes (fst (php_attempt E url)) = [chs]) /\
    (snd (php_attempt E url) = None -> App.cache_writes (fst (php_attempt E url)) = []).
Proof.
  intros E url. unfold php_attempt.
  destruct (net E (PHP_PROXY ++ encodeURIComponent url)) as [e | r]; [split; [discriminate | reflexivity] |].
  destruct (ok r); [| split; [discriminate | reflexivity]].
  destruct (text r) as [content | e]; [| split; [discriminate | reflexivity]].
  destruct (0 <? length (parse content)) eqn:Hlen.
  - split; [| discriminate].
    intros chs H. simpl in H. injection H as <-. split; [| reflexivity].
    apply Nat.ltb_lt in Hlen. intros H. rewrite H in Hlen. simpl in Hlen. lia.
  - split; [discriminate | reflexivity].
Qed.

(** X23: without a usable cache, a successful [fetchPlaylist] caches exactly the non-empty list it returns, once, and a failed one caches nothing. *)
Theorem fetchPlaylist_caches_result :
  forall E url,
    cache_miss E ->
    (forall chs, snd (fetchPlaylist E url) = Returned chs ->
       chs <> [] /\ App.cache_writes (fst (fetchPlaylist E url)) = [chs]) /\
    (forall e, snd (fetchPlaylist E url) = Thrown e ->
       App.cache_writes (fst (fetchPlaylist E url)) = []).
Proof.
  intros E url Hmiss.
  assert (Hnet : fetchPlaylist E url =
    let (ev1, r1) := proxy_loop E url CORS_PROXIES None in
    match r1 with
    | inl chs => (ev1, Returned chs)
    | inr lastError =>
        let (ev2, r2) := php_attempt E url in
        match r2 with
        | Some chs => ((ev1 ++ ev2)%list, Returned chs)
        | None => ((ev1 ++ ev2)%list,
                   Thrown (match lastError with Some e => e | None => GenericError end))
        end
    end).
  { unfold fetchPlaylist, cache_miss in *.
    destruct (getCachedChannels E) as [c |]; [subst c; reflexivity | reflexivity]. }
  rewrite Hnet. clear Hnet.
  destruct (proxy_loop_writes E url CORS_PROXIES None) as [Hl1 Hl2].
  destruct (proxy_loop E url CORS_PROXIES None) as [ev1 r1]. simpl in Hl1, Hl2.
  destruct r1 as [chs | le].
  - split; [| discriminate]. intros chs' H. simpl in H. injection H as <-. exact (Hl1 _ eq_refl).
  - specialize (Hl2 _ eq_refl).
    destruct (php_attempt_writes E url) as [Hp1 Hp2].
    destruct (php_attempt E url) as [ev2 r2]. simpl in Hp1, Hp2.
    destruct r2 as [chs |].
    + split; [| discriminate]. intros chs' H. simpl in H. injection H as <-.
      simpl. rewrite cache_writes_app, Hl2. exact (Hp1 _ eq_refl).
    + split; [discriminate |]. intros e _. simpl. rewrite cache_writes_app, Hl2, (Hp2 eq_refl).
      reflexivity.
Qed.

Lemma fetchPlaylist_caches_result_witness :
  snd (fetchPlaylist env_ok PLAYLIST_URL) = Returned (parse sample_playlist) /\
  App.cache_writes (fst (fetchPlaylist env_ok PLAYLIST_URL)) = [parse sample_playlist].
Proof.
  assert (H : snd (fetchPlaylist env_ok PLAYLIST_URL) = Returned (parse sample_playlist))
    by (vm_compute; reflexivity).
  split; [exact H|].
  exact (proj2 (proj1 (fetchPlaylist_caches_result env_ok PLAYLIST_URL I) _ H)).
Defined.

Section FetchStorage.
Import Storage.

Lemma apply_cache_writes_none :
  forall fits t evs st, App.cache_writes evs = [] -> App.apply_cache_writes fits t evs st = st.
Proof.
  intros fits t evs. induction evs as [| ev evs IH]; intros st H; [reflexivity |].
  destruct ev as [u | e | chs]; simpl in H |- *; [apply IH; exact H | apply IH; exact H | discriminate].
Qed.

Lemma apply_cache_writes_one :
  forall fits t evs st chs, App.cache_writes evs = [chs] ->
    App.apply_cache_writes fits t evs st = cacheChannels fits t chs 1 st.
Proof.
  intros fits t evs. induction evs as [| ev evs IH]; intros st chs H; [discriminate |].
  destruct ev as [u | e | c]; simpl in H |- *.
  - apply IH. exact H.
  - apply IH. exact H.
  - injection H as Hc Hrest. subst c.
    rewrite apply_cache_writes_none by exact Hrest. reflexivity.
Qed.

(** X24: after a [fetchPlaylist] that went to the network and returned channels, a second call within the hour after the cache write makes no request and returns the same channels. *)
Theorem fetch_then_refetch_within_hour :
  forall net url st now t_write evs chs st' fits2 now2 t_write2 net2,
    App.fetchPlaylist_stored true now t_write net url st = (evs, Returned chs, st') ->
    evs <> [] ->
    (now2 <= t_write + 3600000)%Z ->
    App.fetchPlaylist_stored fits2 now2 t_write2 net2 url st' = ([], Returned chs, st').
Proof.
  intros net url st now t_write evs chs st' fits2 now2 t_write2 net2 H1 Hev Hnow.
  unfold App.fetchPlaylist_stored in H1.
  destruct (getCachedChannels now st) as [c st1] eqn:Hg.
  set (E := {| Fetch.getCachedChannels := c; Fetch.net := net |}) in H1.
  assert (Hmiss : cache_miss E).
  { unfold cache_miss. simpl. destruct c as [c |]; [| exact I].
    destruct c as [| x c]; [reflexivity |]. exfalso.
    unfold fetchPlaylist in H1. simpl in H1. injection H1 as He _ _. congruence. }
  destruct (fetchPlaylist_caches_result E url Hmiss) as [Hret _].
  destruct (fetchPlaylist E url) as [evs0 o] eqn:Hf.
  injection H1 as He Ho Hst. subst evs0 o.
  destruct (Hret chs eq_refl) as [Hne Hw]. simpl in Hw.
  rewrite (apply_cache_writes_one _ _ _ _ _ Hw) in Hst. subst st'.
  unfold App.fetchPlaylist_stored, getCachedChannels at 1, cacheChannels.
  cbn [cache_item set_cache expiry cached].
  replace (t_write + 1 * 60 * 60 * 1000 <? now2)%Z with false by (symmetry; apply Z.ltb_ge; lia).
  unfold fetchPlaylist. cbn [Fetch.getCachedChannels].
  destruct chs as [| x rest]; [congruence |]. reflexivity.
Qed.

Lemma fetch_then_refetch_within_hour_witness :
  App.fetchPlaylist_stored false 3600005 9 (fun _ => Rejected (NetworkError 0)) PLAYLIST_URL
    (snd (App.fetchPlaylist_stored true 0 5 net_ok PLAYLIST_URL empty_store)) =
  ([], Returned (parse sample_playlist),
   snd (App.fetchPlaylist_stored true 0 5 net_ok PLAYLIST_URL empty_store)).
Proof.
  apply (fetch_then_refetch_within_hour net_ok PLAYLIST_URL empty_store 0 5
           (fst (fst (App.fetchPlaylist_stored true 0 5 net_ok PLAYLIST_URL empty_store)))).
  - vm_compute; reflexivity.
  - vm_compute; discriminate.
  - lia.
Defined.

End FetchStorage.

Lemma padStart2_two_digits :
  forall m, (0 <= m < 100)%Z ->
    padStart2 (number_toString m) = String (digit10 (m / 10)) (String (digit10 (m mod 10)) "").
Proof.
  intros m Hm. unfold number_toString.
  replace (m <? 0)%Z with false by (symmetry; apply Z.ltb_ge; lia).
  cbn [to_decimal_aux]. destruct (m <? 10)%Z eqn:H10.
  - apply Z.ltb_lt in H10. unfold padStart2. cbn [String.length].
    rewrite Z.div_small by lia. rewrite (Z.mod_small m 10) by lia. reflexivity.
  - apply Z.ltb_ge in H10.
    assert (Hq : (0 <= m / 10 < 10)%Z) by (split; [apply Z.div_pos | apply Z.div_lt_upper_bound]; lia).
    cbn [to_decimal_aux]. replace (m / 10 <? 10)%Z with true by (symmetry; apply Z.ltb_lt; lia).
    rewrite (Z.mod_small (m / 10) 10) by lia. reflexivity.
Qed.

(** X25: for a whole number of seconds between 1 and 5999, [formatTime] gives two minute digits, a colon and two second digits. *)
Theorem formatTime_mm_ss :
  forall n, (0 < n < 6000)%Z ->
    formatTime (Num n) =
      String (digit10 (n / 60 / 10)) (String (digit10 (n / 60 mod 10))
        (String ":" (String (digit10 (n mod 60 / 10)) (String (digit10 (n mod 60 mod 10)) "")))).
Proof.
  intros n Hn. unfold formatTime.
  replace (n =? 0)%Z with false by (symmetry; apply Z.eqb_neq; lia).
  rewrite Z.rem_mod_nonneg by lia.
  rewrite padStart2_two_digits by (split; [apply Z.div_pos | apply Z.div_lt_upper_bound]; lia).
  rewrite padStart2_two_digits by (assert (H := Z.mod_pos_bound n 60); lia).
  reflexivity.
Qed.

Lemma formatTime_mm_ss_witness : (0 < 75 < 6000)%Z /\ formatTime (Num 75) = "01:15".
Proof.
  split; [lia|]. rewrite (formatTime_mm_ss 75) by lia. vm_compute; reflexivity.
Defined.

(** ** The keyboard listener *)

Lemma finish_keeps_player : forall c s n,
  isPlayerActive (final (finish c s n)) = isPlayerActive s.
Proof.
  intros c s [e'|]; unfold finish; [destruct c as [e|]; [destruct (Nat.eqb e e')|] |]; reflexivity.
Qed.

Lemma navigate_keeps_player : forall E s d,
  isPlayerActive (final (navigate E s d)) = isPlayerActive s.
Proof.
  intros E s d. unfold navigate.
  assert (H1 : isPlayerActive (match grid s with [] => updateFocusableElements E s | _ => s end)
               = isPlayerActive s).
  { destruct (grid s); [unfold updateFocusableElements; destruct (negb _)|]; reflexivity. }
  revert H1. generalize (match grid s with [] => updateFocusableElements E s | _ => s end).
  intros s1 H1. rewrite <- H1.
  assert (H2 : isPlayerActive (sync_cursor s1) = isPlayerActive s1).
  { unfold sync_cursor. destruct (focusedElement s1); [|reflexivity].
    destruct (locate _ _) as [[r c]|]; reflexivity. }
  destruct (grid s1); [reflexivity|]. rewrite <- H2.
  generalize (sync_cursor s1). intros s2.
  unfold move; destruct d;
    repeat match goal with
           | |- context [if ?b then _ else _] => destruct b
           | |- context [match idx ?g ?i with _ => _ end] => destruct (idx g i)
           end; try reflexivity; rewrite finish_keeps_player; reflexivity.
Qed.

Lemma select_keeps_player : forall s, isPlayerActive (final (select s)) = isPlayerActive s.
Proof. intros s; unfold select; destruct (focusedElement s); reflexivity. Qed.

Lemma back_keeps_player : forall E s, isPlayerActive (final (back E s)) = isPlayerActive s.
Proof.
  intros E s. unfold back. destruct (isPlayerActive s) eqn:Hp.
  - destruct (has_method _ _); simpl; exact Hp.
  - destruct (negb _); [destruct (has_method _ _); simpl; exact Hp|].
    destruct (focusHistory s); [|destruct (attached _ _)]; simpl; exact Hp.
Qed.

Lemma toggleFavorite_keeps_player : forall E s,
  isPlayerActive (final (toggleFavorite E s)) = isPlayerActive s.
Proof.
  intros E s; unfold toggleFavorite.
  destruct (focusedElement s); [destruct (favorite_button _ _)|]; reflexivity.
Qed.

Lemma call_Player_keeps_state : forall E s m, final (call_Player E s m) = s.
Proof. intros E s m; unfold call_Player; destruct (has_method _ _); reflexivity. Qed.

Lemma key_action_keeps_player : forall E s key,
  isPlayerActive (final (key_action E s key)) = isPlayerActive s.
Proof.
  intros E s key. unfold key_action.
  repeat match goal with
         | |- context [if String.eqb ?a ?b then _ else _] => destruct (String.eqb a b)
         | |- context [if (?x || ?y)%bool then _ else _] => destruct (x || y)%bool
         end;
  rewrite ?navigate_keeps_player, ?select_keeps_player, ?back_keeps_player,
    ?toggleFavorite_keeps_player; try reflexivity;
  destruct (isPlayerActive s) eqn:Hp; rewrite ?call_Player_keeps_state; simpl; congruence.
Qed.

(** X26: in player mode, with [window.Player] undefined every key press
    ends in a [TypeError] (in the [switch] or at [showControls]); and the
    P, p and space keys throw before doing anything, with [window.Player]
    undefined or the [Player] object, which has no [togglePlay] method. *)
Theorem onKeydown_player_mode_throws :
  forall E s key,
    isPlayerActive s = true ->
    (window_Player E = None -> raised (onKeydown E s key) = true) /\
    ((key = "p" \/ key = "P" \/ key = " ") ->
     window_Player E = None \/ window_Player E = Some Player_object ->
     onKeydown E s key = throws s).
Proof.
  intros E s key Hp. split.
  - intros HN. unfold onKeydown.
    destruct (raised (key_action E s key)) eqn:Hr; [exact Hr|].
    rewrite key_action_keeps_player, Hp. unfold call_Player. rewrite HN. reflexivity.
  - intros Hk HP. unfold onKeydown, key_action.
    assert (Ht : call_Player E s "togglePlay" = throws s).
    { unfold call_Player. destruct HP as [HP|HP]; rewrite HP; reflexivity. }
    destruct Hk as [ -> | [ -> | -> ] ]; simpl; rewrite Hp, Ht; reflexivity.
Qed.

Lemma onKeydown_player_mode_throws_witness :
  raised (onKeydown page playing "ArrowRight") = true /\ onKeydown page playing "p" = throws playing.
Proof.
  destruct (onKeydown_player_mode_throws page playing "ArrowRight" eq_refl) as [H1 _].
  destruct (onKeydown_player_mode_throws page playing "p" eq_refl) as [_ H2].
  split; [exact (H1 eq_refl) | exact (H2 (or_introl eq_refl) (or_introl eq_refl))].
Defined.
